(** * Wyze doorbell event bridge: a shallow embedding of
      [src/wyze_event_bridge.py] and the properties of its polling loop.

    Modelling conventions.
    - An aware [datetime] is the instant it denotes, a [Z] counting the
      microseconds (the resolution of Python's [datetime]) since
      0001-01-01T00:00:00 UTC.  A UTC [datetime] lies between [dt_min] and
      [dt_max]; an event timestamp carrying another offset can denote an
      instant up to a day outside that range.  [astimezone(utc)] keeps the
      instant and raises [OverflowError] when it is outside the range, and
      so does adding a [timedelta] whose result is outside it.  The ISO
      string of a UTC instant is represented by the instant itself.
    - [timedelta(seconds=0.001)] is 1000 microseconds, [timedelta(seconds=15)]
      is 15000000.
    - Python exceptions are a value of type [exn]; a computation is a
      function from the world to a result (returned value or raised
      exception) and the world it leaves behind.  Effects done before an
      exception is raised stay done, as in Python.
    - The world holds the module-level global [last_check_time], the HTTP
      POSTs issued so far and the lines printed so far.  The wall clock, the
      Wyze client and the HTTP endpoint are inputs. *)

From Stdlib Require Import ZArith List String Bool Lia Permutation Sorted.
Import ListNotations.
Open Scope Z_scope.

(** ** Exceptions and the computation monad *)

Inductive exn : Type :=
| HTTPError (status_code : Z)      (* requests.exceptions.HTTPError *)
| Timeout                          (* requests.exceptions.Timeout *)
| ConnectionError                  (* requests.exceptions.ConnectionError *)
| OtherException (name : string).  (* any other subclass of Exception *)

(** [isinstance(e, requests.exceptions.RequestException)] *)
Definition is_RequestException (e : exn) : bool :=
  match e with
  | OtherException _ => false
  | _ => true
  end.

Inductive result (A : Type) : Type :=
| Return (a : A)
| Raised (e : exn).
Arguments Return {A} a.
Arguments Raised {A} e.

(** ** Data *)

(** The two attributes of a Wyze event the bridge reads. *)
Record event : Type := mkEvent {
  event_type : Z;
  event_ts : Z
}.

(** The dict built at lines 95-100. *)
Record event_data : Type := mkEventData {
  eventType : Z;
  deviceMac : string;
  eventTime : Z
}.

(** The JSON body built at lines 47-52. *)
Record payload : Type := mkPayload {
  p_eventType : Z;
  p_deviceMac : string;
  p_eventTimeUtc : Z;
  p_message : string
}.

(** What is printed, one constructor per [print] of the source. *)
Inductive line : Type :=
| SendingEvent                              (* line 44 *)
| BridgeResponded (status_code : Z)         (* line 57 *)
| ErrorSending (e : exn)                    (* line 60 *)
| UnexpectedPostError (e : exn)             (* line 62 *)
| PollingBetween (start_time end_time : Z)  (* line 76 *)
| FoundPresses (n : nat)                    (* line 110 *)
| NoNewPresses                              (* line 115 *)
| PollingError (e : exn).                   (* line 126 *)

(** The arguments of one call of [client.events.list]. *)
Record query : Type := mkQuery {
  q_device_mac : string;
  q_start_time : Z;
  q_end_time : Z;
  q_max_count : Z
}.

Record world : Type := mkWorld {
  last_check_time : Z;
  queries : list query;   (* calls of client.events.list, oldest first *)
  posts : list payload;   (* requests issued, oldest first *)
  stdout : list line      (* lines printed, oldest first *)
}.

Definition Py (A : Type) : Type := world -> result A * world.

Definition ret {A} (a : A) : Py A := fun w => (Return a, w).

Definition raise {A} (e : exn) : Py A := fun w => (Raised e, w).

Definition bind {A B} (c : Py A) (k : A -> Py B) : Py B :=
  fun w =>
    match c w with
    | (Return a, w') => k a w'
    | (Raised e, w') => (Raised e, w')
    end.

Notation "x <- c ;; k" := (bind c (fun x => k))
  (at level 61, c at next level, right associativity).
Notation "c ;; k" := (bind c (fun _ => k))
  (at level 61, right associativity).

(** [try: body except ... as e: handler e] *)
Definition try_except {A} (body : Py A) (handler : exn -> Py A) : Py A :=
  fun w =>
    match body w with
    | (Return a, w') => (Return a, w')
    | (Raised e, w') => handler e w'
    end.

Definition print (l : line) : Py unit :=
  fun w => (Return tt,
            mkWorld (last_check_time w) (queries w) (posts w)
                    (stdout w ++ [l])).

Definition set_last_check_time (t : Z) : Py unit :=
  fun w => (Return tt, mkWorld t (queries w) (posts w) (stdout w)).

Definition get_last_check_time : Py Z :=
  fun w => (Return (last_check_time w), w).

(** [for x in xs: body x] *)
Fixpoint for_each {A} (xs : list A) (body : A -> Py unit) : Py unit :=
  match xs with
  | [] => ret tt
  | x :: xs' => body x ;; for_each xs' body
  end.

(** ** Configuration (lines 13-19) *)

Definition POLLING_INTERVAL_SECONDS : Z := 5.
Definition EVENT_TYPE_BUTTON_PRESS : Z := 2005.

Definition microseconds_per_second : Z := 1000000.

(** [timedelta(seconds=0.001)] *)
Definition one_millisecond : Z := 1000.

(** [timedelta(seconds=15)] *)
Definition startup_lookback : Z := 15 * microseconds_per_second.

(** ** The range of [datetime] *)

(** [datetime.min] and [datetime.max] read as UTC: 0001-01-01T00:00:00 and
    9999-12-31T23:59:59.999999. *)
Definition dt_min : Z := 0.

Definition dt_max : Z := 315537897599999999.

Definition OverflowError : exn := OtherException "OverflowError".

Definition representable (t : Z) : bool :=
  (dt_min <=? t) && (t <=? dt_max).

(** [t.astimezone(timezone.utc)] *)
Definition astimezone_utc (t : Z) : result Z :=
  if representable t then Return t else Raised OverflowError.

(** [t + delta] for a UTC [datetime] and a [timedelta] *)
Definition datetime_plus (t delta : Z) : result Z :=
  if representable (t + delta) then Return (t + delta)
  else Raised OverflowError.

(** ** The HTTP endpoint *)

(** What the server and the network do with one POST: a response with a
    status code, or an exception out of [requests.post]. *)
Inductive post_result : Type :=
| Response (status_code : Z)
| PostRaises (e : exn).

(** The endpoint answers a request knowing the requests made before. *)
Definition endpoint : Type := list payload -> payload -> post_result.

(** [requests.post(TARGET_API_URL, json=payload, timeout=5)]: the request is
    issued, then the response comes back or an exception is raised. *)
Definition requests_post (srv : endpoint) (p : payload) : Py Z :=
  fun w =>
    let w' := mkWorld (last_check_time w) (queries w) (posts w ++ [p])
                      (stdout w) in
    match srv (posts w) p with
    | Response s => (Return s, w')
    | PostRaises e => (Raised e, w')
    end.

(** [Response.raise_for_status] of the requests library: raises [HTTPError]
    for the client and server error codes, 400 to 599, and only for them
    (the source says so at line 55: "bad status codes (4xx or 5xx)"). *)
Definition raise_for_status (status_code : Z) : Py unit :=
  if (400 <=? status_code) && (status_code <? 600)
  then raise (HTTPError status_code)
  else ret tt.

(** ** [send_to_csharp_bridge] (lines 42-62) *)

Definition send_to_csharp_bridge (srv : endpoint) (d : event_data) : Py unit :=
  print SendingEvent ;;
  try_except
    (let p := mkPayload (eventType d) (deviceMac d) (eventTime d)
                        "Doorbell Button Pressed" in
     status_code <- requests_post srv p ;;
     raise_for_status status_code ;;
     print (BridgeResponded status_code))
    (fun e =>
       if is_RequestException e
       then print (ErrorSending e)
       else print (UnexpectedPostError e)).

(** ** [poll_for_doorbell_events] (lines 64-130) *)

(** [client.events.list(device_mac=, start_time=, end_time=, max_count=)]:
    the events it returns, or the exception it raises. *)
Definition WyzeClient : Type :=
  string -> Z -> Z -> Z -> result (list event).

(** The call at lines 81-86: the query goes out, then the events come back
    or an exception is raised. *)
Definition client_events_list (client : WyzeClient)
    (device_mac : string) (start_time end_time max_count : Z)
    : Py (list event) :=
  fun w =>
    (client device_mac start_time end_time max_count,
     mkWorld (last_check_time w)
             (queries w ++ [mkQuery device_mac start_time end_time max_count])
             (posts w) (stdout w)).

(** One iteration of the loop at lines 91-105, on the pair
    [(new_doorbell_presses, latest_event_time)]; the conversions at lines 99
    and 104 can raise. *)
Definition classify (device_mac : string)
    (acc : list event_data * Z) (ev : event)
    : result (list event_data * Z) :=
  let (new_doorbell_presses, latest_event_time) := acc in
  match (if event_type ev =? EVENT_TYPE_BUTTON_PRESS
         then match astimezone_utc (event_ts ev) with
              | Return t =>
                  Return (new_doorbell_presses
                            ++ [mkEventData (event_type ev) device_mac t])
              | Raised e => Raised e
              end
         else Return new_doorbell_presses) with
  | Raised e => Raised e
  | Return new_doorbell_presses =>
      match astimezone_utc (event_ts ev) with
      | Raised e => Raised e
      | Return t =>
          Return (new_doorbell_presses,
                  if t >? latest_event_time then t else latest_event_time)
      end
  end.

(** The loop at lines 91-105: it stops at the first exception. *)
Fixpoint classify_all (device_mac : string) (events : list event)
    (acc : list event_data * Z) : result (list event_data * Z) :=
  match events with
  | [] => Return acc
  | ev :: events' =>
      match classify device_mac acc ev with
      | Return acc' => classify_all device_mac events' acc'
      | Raised e => Raised e
      end
  end.

(** A value computed without effect, or the exception it raised. *)
Definition lift_result {A} (r : result A) : Py A := fun w => (r, w).

Definition poll_for_doorbell_events
    (now : Z) (srv : endpoint) (client : WyzeClient) (device_mac : string)
    : Py unit :=
  let current_time := now in
  start_time <- get_last_check_time ;;
  let end_time := current_time in
  print (PollingBetween start_time end_time) ;;
  try_except
    (events <- client_events_list client device_mac start_time end_time 10 ;;
     acc <- lift_result (classify_all device_mac events ([], start_time)) ;;
     let (new_doorbell_presses, latest_event_time) := acc in
     (match new_doorbell_presses with
      | _ :: _ =>
          print (FoundPresses (List.length new_doorbell_presses)) ;;
          for_each (rev new_doorbell_presses) (send_to_csharp_bridge srv)
      | [] => print NoNewPresses
      end) ;;
     last_check <- get_last_check_time ;;
     if latest_event_time >? last_check
     then (t <- lift_result (datetime_plus latest_event_time one_millisecond) ;;
           set_last_check_time t)
     else set_last_check_time current_time)
    (fun e => print (PollingError e)).

(** ** Start-up and [main] (lines 40 and 132-142) *)

(** The world when the module has been loaded at instant [startup]. *)
Definition initial_world (startup : Z) : world :=
  mkWorld (startup - startup_lookback) [] [] [].

(** What one iteration of [while True] meets: the clock reading taken at
    line 68 and the behaviour of the Wyze service during that iteration. *)
Record cycle : Type := mkCycle {
  current_time : Z;
  events_list : WyzeClient
}.

(** The first iterations of the loop of [main], one per element of [cs];
    [time.sleep] only shows in the clock readings. *)
Fixpoint main_loop (srv : endpoint) (device_mac : string) (cs : list cycle)
    : Py unit :=
  match cs with
  | [] => ret tt
  | c :: cs' =>
      poll_for_doorbell_events (current_time c) srv (events_list c) device_mac ;;
      main_loop srv device_mac cs'
  end.

(** The world after a computation, and whether it returned. *)
Definition exec {A} (c : Py A) (w : world) : world := snd (c w).

Definition returns {A} (c : Py A) (w : world) : Prop :=
  exists a, fst (c w) = Return a.

(** ** What the functions compute, in closed form *)

Definition payload_of (d : event_data) : payload :=
  mkPayload (eventType d) (deviceMac d) (eventTime d) "Doorbell Button Pressed".

(** The line [send_to_csharp_bridge] prints after [SendingEvent]. *)
Definition report (r : post_result) : line :=
  match r with
  | Response s =>
      if (400 <=? s) && (s <? 600)
      then ErrorSending (HTTPError s)
      else BridgeResponded s
  | PostRaises e =>
      if is_RequestException e then ErrorSending e else UnexpectedPostError e
  end.

Fixpoint reports (srv : endpoint) (history : list payload)
    (ds : list event_data) : list line :=
  match ds with
  | [] => []
  | d :: ds' =>
      SendingEvent :: report (srv history (payload_of d))
        :: reports srv (history ++ [payload_of d]) ds'
  end.

Definition is_button_press (ev : event) : bool :=
  event_type ev =? EVENT_TYPE_BUTTON_PRESS.

Definition event_data_of (device_mac : string) (ev : event) : event_data :=
  mkEventData (event_type ev) device_mac (event_ts ev).

(** [new_doorbell_presses] after the loop at lines 91-105. *)
Definition presses (device_mac : string) (events : list event)
    : list event_data :=
  map (event_data_of device_mac) (filter is_button_press events).

(** [latest_event_time] after the loop at lines 91-105. *)
Definition latest_after (start_time : Z) (events : list event) : Z :=
  fold_left (fun m ev => Z.max m (event_ts ev)) events start_time.

(** [last_check_time] after lines 119-122. *)
Definition next_check_time (start_time now : Z) (events : list event) : Z :=
  if latest_after start_time events >? start_time
  then latest_after start_time events + one_millisecond
  else now.

(** The lines printed at lines 109-115. *)
Definition press_lines (srv : endpoint) (history : list payload)
    (ps : list event_data) : list line :=
  match ps with
  | [] => [NoNewPresses]
  | _ :: _ => FoundPresses (List.length ps) :: reports srv history (rev ps)
  end.

(** The largest timestamp of a list of events: [m] is the timestamp of one
    of them and no event of the list is later. *)
Definition is_latest_of (m : Z) (events : list event) : Prop :=
  (exists ev, In ev events /\ event_ts ev = m) /\
  (forall ev, In ev events -> event_ts ev <= m).

(** The line that closes what [send_to_csharp_bridge] prints for one event:
    "C# Bridge responded" when the delivery is taken as done, one of the two
    error lines when it is taken as failed. *)
Definition delivery_line (srv : endpoint) (d : event_data) (w : world) : line :=
  last (stdout (exec (send_to_csharp_bridge srv d) w)) SendingEvent.

(** ** Runs of the loop *)

Definition poll_cycle (srv : endpoint) (device_mac : string) (c : cycle)
    : Py unit :=
  poll_for_doorbell_events (current_time c) srv (events_list c) device_mac.

(** The world after the first [n] iterations. *)
Definition world_after (srv : endpoint) (device_mac : string)
    (cs : list cycle) (n : nat) (w : world) : world :=
  exec (main_loop srv device_mac (firstn n cs)) w.


(** Every cycle of the run reads a clock that is past the watermark it
    starts from: its window has its start before its end. *)
Fixpoint proper_windows (srv : endpoint) (device_mac : string)
    (cs : list cycle) (w : world) : Prop :=
  match cs with
  | [] => True
  | c :: cs' =>
      last_check_time w < current_time c /\
      proper_windows srv device_mac cs' (exec (poll_cycle srv device_mac c) w)
  end.

(** ** An event service with a fixed store *)

Definition in_window (start_time end_time : Z) (ev : event) : bool :=
  (start_time <=? event_ts ev) && (event_ts ev <=? end_time).

(** Modelled from the spec: the upstream event source, which is not part of
    the repository ("given inclusive UTC bounds, returns up to maxCount
    events for the device; ordering not guaranteed").  The service holds the
    events of [store]; a query gets those inside the bounds, in the order
    [shuffle] puts them for that window, cut to [max_count]. *)
Definition service (shuffle : Z -> Z -> list event -> list event)
    (store : list event) : WyzeClient :=
  fun _ start_time end_time max_count =>
    Return (firstn (Z.to_nat max_count)
              (shuffle start_time end_time
                 (filter (in_window start_time end_time) store))).

(** The clock readings of successive iterations: [time.sleep] at line 142
    puts at least the polling interval between two of them. *)
Fixpoint sleeps_between (t : Z) (times : list Z) : Prop :=
  match times with
  | [] => True
  | t' :: rest =>
      t + POLLING_INTERVAL_SECONDS * microseconds_per_second <= t' /\
      sleeps_between t' rest
  end.

(** The clock is read at line 40 first, then once per iteration. *)
Definition clock_readings (startup : Z) (times : list Z) : Prop :=
  match times with
  | [] => True
  | t :: rest => startup <= t /\ sleeps_between t rest
  end.

(** The iterations that read the clock at [times] and query the service. *)
Definition polls (shuffle : Z -> Z -> list event -> list event)
    (store : list event) (times : list Z) : list cycle :=
  map (fun t => mkCycle t (service shuffle store)) times.

(** The bridge started at [startup] against the service, polled at
    [times]. *)
Definition bridge_run (srv : endpoint) (device_mac : string)
    (shuffle : Z -> Z -> list event -> list event) (store : list event)
    (startup : Z) (times : list Z) : world :=
  exec (main_loop srv device_mac (polls shuffle store times))
       (initial_world startup).

(** The timestamps of the stored events increase strictly along the list. *)
Definition strictly_increasing (store : list event) : Prop :=
  Sorted (fun a b => event_ts a < event_ts b) store.

(** The events of the store inside the window of a query. *)
Definition stored_in (store : list event) (q : query) : list event :=
  filter (in_window (q_start_time q) (q_end_time q)) store.

Definition payload_for (device_mac : string) (ev : event) : payload :=
  payload_of (event_data_of device_mac ev).

Definition payload_eq_dec (p q : payload) : {p = q} + {p <> q}.
Proof.
  decide equality; auto using Z.eq_dec, string_dec.
Defined.

(** ** The invariant of a run against the service *)

(** Every request issued so far carries a timestamp below the watermark. *)
Definition delivered_below (w : world) : Prop :=
  forall p, In p (posts w) -> p_eventTimeUtc p < last_check_time w.

(** The requests issued so far are those of the stored button presses
    stamped from [lo] on and below the watermark. *)
Definition posts_are_presses_below (device_mac : string)
    (store : list event) (lo : Z) (w : world) : Prop :=
  forall p,
    In p (posts w) <->
    exists ev,
      In ev store /\ is_button_press ev = true /\
      p = payload_for device_mac ev /\
      lo <= event_ts ev < last_check_time w.

(** A stored event stamped from [lo] on is below the watermark exactly when
    it is not later than a clock reading already used. *)
Definition below_iff_polled (store : list event) (lo : Z) (done : list Z)
    (w : world) : Prop :=
  forall ev, In ev store -> lo <= event_ts ev ->
    (event_ts ev < last_check_time w <->
     exists t, In t done /\ event_ts ev <= t).

(** The clock readings still to come are past the watermark and a polling
    interval apart. *)
Definition clock_ahead (w : world) (times : list Z) : Prop :=
  match times with
  | [] => True
  | t :: rest => last_check_time w < t /\ sleeps_between t rest
  end.

(** The stored timestamps are whole milliseconds, the resolution of the
    timestamps the Wyze service gives. *)
Definition whole_milliseconds (store : list event) : Prop :=
  forall ev, In ev store -> event_ts ev mod 1000 = 0.

(** ** Timestamps and the calendar *)

(** Every timestamp of the list converts to UTC. *)
Definition in_calendar (events : list event) : Prop :=
  forall ev, In ev events -> dt_min <= event_ts ev <= dt_max.

(** Every timestamp of the list converts to UTC and is at least a
    millisecond away from the end of the calendar. *)
Definition inside_calendar (events : list event) : Prop :=
  forall ev, In ev events ->
    dt_min <= event_ts ev /\ event_ts ev + one_millisecond <= dt_max.

(** The watermark a cycle would set lies in the calendar: either no returned
    event is later than the window start, or the latest one leaves room for
    the increment of line 120. *)
Definition advance_fits (start_time : Z) (events : list event) : Prop :=
  start_time < latest_after start_time events ->
  latest_after start_time events + one_millisecond <= dt_max.

(** ** The span a run covers and the cap *)

(** The event is stamped between the first watermark and one of the clock
    readings of the run. *)
Definition in_span (startup : Z) (times : list Z) (ev : event) : Prop :=
  exists t, In t times /\ startup - startup_lookback <= event_ts ev <= t.

(** Between two successive clock readings, and between the first watermark
    and the first reading, the store holds no more events than the cap. *)
Fixpoint within_cap (store : list event) (prev : Z) (times : list Z) : Prop :=
  match times with
  | [] => True
  | t :: rest =>
      (List.length (filter (in_window prev t) store) <= 10)%nat /\
      within_cap store t rest
  end.

(** The clock readings leave room for the increment of line 120. *)
Definition clock_in_calendar (startup : Z) (times : list Z) : Prop :=
  dt_min <= startup - startup_lookback /\
  forall t, In t times -> t + one_millisecond <= dt_max.

(** No stored event is waiting between the watermark and the last clock
    reading [prev]. *)
Definition nothing_pending (store : list event) (prev : Z) (w : world)
    : Prop :=
  forall ev, In ev store ->
    last_check_time w <= event_ts ev -> prev <= event_ts ev.

(** What a run against the service keeps true, [done] being the clock
    readings used so far and [prev] the last of them (or [lo]). *)
Definition span_invariant (device_mac : string) (store : list event)
    (lo : Z) (done : list Z) (prev : Z) (w : world) : Prop :=
  NoDup (posts w) /\
  posts_are_presses_below device_mac store lo w /\
  below_iff_polled store lo done w /\
  lo <= last_check_time w /\
  nothing_pending store prev w.

(** ** Sample collaborators, for the concrete runs below *)

Definition sample_mac : string := "2CAA8E1234AB".

Definition seconds (n : Z) : Z := n * microseconds_per_second.

(** Endpoints: one that accepts everything, one that answers 500 to the
    first request and times out afterwards, one that answers 304. *)
Definition accepting : endpoint := fun _ _ => Response 200.

Definition flaky : endpoint :=
  fun history _ =>
    match history with
    | [] => Response 500
    | _ :: _ => PostRaises Timeout
    end.

Definition not_modified : endpoint := fun _ _ => Response 304.

(** Clients: one that returns a given list whatever the window, one that
    raises. *)
Definition answers (events : list event) : WyzeClient :=
  fun _ _ _ _ => Return events.

Definition failing (e : exn) : WyzeClient :=
  fun _ _ _ _ => Raised e.

Definition press (t : Z) : event := mkEvent EVENT_TYPE_BUTTON_PRESS t.

(** Event type 13 stands for any event that is not a button press. *)
Definition motion (t : Z) : event := mkEvent 13 t.

(** A store of five events, polled four times by a bridge started at
    100 s; the service answers newest last or newest first by turns. *)
Definition sample_store : list event :=
  [press (seconds 90); motion (seconds 95); press (seconds 103);
   press (seconds 107); press (seconds 118)].

Definition sample_times : list Z :=
  [seconds 105; seconds 110; seconds 115; seconds 120].

Definition sample_shuffle (start_time end_time : Z) (l : list event)
    : list event :=
  if Z.even (end_time / microseconds_per_second) then l else rev l.

(** ** Client initialisation and [main] (lines 17, 22-36 and 132-142) *)

(** The lines printed outside the two functions above. *)
Inductive banner : Type :=
| ClientInitialized                                (* line 32 *)
| ErrorInitializing (e : exn)                      (* line 35 *)
| ExitingNoClient                                  (* line 135 *)
| StartingBridge (device_mac : string) (interval : Z).  (* line 138 *)

(** Truth value of what [os.environ.get] returned: [None] and the empty
    string are false. *)
Definition truthy (v : option string) : bool :=
  match v with
  | None => false
  | Some EmptyString => false
  | Some (String _ _) => true
  end.

(** [os.environ.get("DOORBELL_MAC_ID", "YOUR_DOORBELL_MAC_HERE")], line 17. *)
Definition DOORBELL_MAC (DOORBELL_MAC_ID : option string) : string :=
  match DOORBELL_MAC_ID with
  | Some device_mac => device_mac
  | None => "YOUR_DOORBELL_MAC_HERE"
  end.

(** Lines 26-36: the value of [wyze_client] and the line printed.  [Client]
    is the constructor of the SDK: the client it builds, or the exception it
    raises. *)
Definition initialize_wyze_client {C : Type}
    (Client : string -> string -> result C)
    (WYZE_EMAIL WYZE_PASSWORD : option string) : option C * banner :=
  match WYZE_EMAIL, WYZE_PASSWORD with
  | Some email, Some password =>
      if negb (truthy WYZE_EMAIL) || negb (truthy WYZE_PASSWORD)
      then (None, ErrorInitializing (OtherException "ValueError"))
      else match Client email password with
           | Return c => (Some c, ClientInitialized)
           | Raised e => (None, ErrorInitializing e)
           end
  | _, _ => (None, ErrorInitializing (OtherException "ValueError"))
  end.

(** [main], lines 132-142: the line it prints first and the iterations of
    its loop that [cs] describes. *)
Definition main {C : Type} (wyze_client : option C) (srv : endpoint)
    (device_mac : string) (cs : list cycle) (w : world)
    : banner * (result unit * world) :=
  match wyze_client with
  | None => (ExitingNoClient, (Return tt, w))
  | Some _ =>
      (StartingBridge device_mac POLLING_INTERVAL_SECONDS,
       main_loop srv device_mac cs w)
  end.

(** The module run as a script: lines 17-40, then [main].  The result is
    the two lines printed outside the loop and the world at the end. *)
Definition bridge_process {C : Type}
    (Client : string -> string -> result C)
    (WYZE_EMAIL WYZE_PASSWORD DOORBELL_MAC_ID : option string)
    (startup : Z) (srv : endpoint) (cs : list cycle) : list banner * world :=
  let (wyze_client, b1) :=
    initialize_wyze_client Client WYZE_EMAIL WYZE_PASSWORD in
  let (b2, r) :=
    main wyze_client srv (DOORBELL_MAC DOORBELL_MAC_ID) cs
         (initial_world startup) in
  ([b1; b2], snd r).

(** Both credentials are set and not empty, and the constructor returns. *)
Definition client_available {C : Type}
    (Client : string -> string -> result C)
    (WYZE_EMAIL WYZE_PASSWORD : option string) : Prop :=
  exists email password c,
    WYZE_EMAIL = Some email /\ WYZE_PASSWORD = Some password /\
    email <> EmptyString /\ password <> EmptyString /\
    Client email password = Return c.

(** ** Properties of clients, payloads and log lines used further down *)

(** A client that only returns events inside the bounds it was asked for. *)
Definition window_honest (client : WyzeClient) : Prop :=
  forall device_mac start_time end_time max_count events,
    client device_mac start_time end_time max_count = Return events ->
    forall ev, In ev events -> start_time <= event_ts ev <= end_time.

(** The query of cycle [c], made from watermark [start_time], raises. *)
Definition query_raises (device_mac : string) (start_time : Z) (c : cycle)
    : Prop :=
  exists e,
    events_list c device_mac start_time (current_time c) 10 = Raised e.


(** Line 44, and the three lines that close a delivery (57, 60, 62). *)
Definition is_sending (l : line) : bool :=
  match l with
  | SendingEvent => true
  | _ => false
  end.

Definition is_outcome (l : line) : bool :=
  match l with
  | BridgeResponded _ | ErrorSending _ | UnexpectedPostError _ => true
  | _ => false
  end.

(** A constructor of the SDK that always returns, one that always raises. *)
Definition building : string -> string -> result unit :=
  fun _ _ => Return tt.

Definition refusing : string -> string -> result unit :=
  fun _ _ => Raised (OtherException "WyzeApiError").

(** An outage of three cycles, then a reply. *)
Definition sample_outage : list cycle :=
  [mkCycle (seconds 105) (failing Timeout);
   mkCycle (seconds 110) (failing ConnectionError);
   mkCycle (seconds 115) (failing Timeout)].

(** An aware timestamp before the calendar in UTC: 0001-01-01T00:00 at
    offset +05:00. *)
Definition before_calendar : Z := dt_min - 5 * 3600 * microseconds_per_second.

(** Two button presses 0.7 ms apart, on either side of a clock reading at
    105 s. *)
Definition close_store : list event := [press 104999500; press 105000200].

Definition close_times : list Z := [seconds 105; seconds 110; seconds 115].

Definition keep_order (start_time end_time : Z) (l : list event)
    : list event := l.

(** ** Closed forms of the two functions *)

Lemma send_to_csharp_bridge_spec (srv : endpoint) (d : event_data) (w : world) :
  send_to_csharp_bridge srv d w =
  (Return tt,
   mkWorld (last_check_time w) (queries w) (posts w ++ [payload_of d])
           (stdout w ++ [SendingEvent; report (srv (posts w) (payload_of d))])).
Proof.
  unfold send_to_csharp_bridge, bind, try_except, requests_post, print,
    raise_for_status, report, payload_of.
  cbn [fst snd last_check_time queries posts stdout].
  destruct (srv (posts w) _) as [s | e].
  - destruct ((400 <=? s) && (s <? 600)); unfold raise, ret; cbn;
      rewrite <- app_assoc; reflexivity.
  - destruct e; cbn; rewrite <- app_assoc; reflexivity.
Qed.

Lemma for_each_send_spec (srv : endpoint) (ds : list event_data) :
  forall w,
    for_each ds (send_to_csharp_bridge srv) w =
    (Return tt,
     mkWorld (last_check_time w) (queries w) (posts w ++ map payload_of ds)
             (stdout w ++ reports srv (posts w) ds)).
Proof.
  induction ds as [| d ds IH]; intros w.
  - cbn. unfold ret. rewrite !app_nil_r. destruct w; reflexivity.
  - cbn [for_each]. unfold bind at 1.
    rewrite send_to_csharp_bridge_spec, IH.
    cbn [last_check_time queries posts stdout map reports].
    rewrite <- !app_assoc. reflexivity.
Qed.

Lemma representable_iff (t : Z) :
  representable t = true <-> dt_min <= t <= dt_max.
Proof.
  unfold representable. rewrite andb_true_iff, !Z.leb_le. tauto.
Qed.

Lemma in_calendar_cons (ev : event) (events : list event) :
  in_calendar (ev :: events) <->
  dt_min <= event_ts ev <= dt_max /\ in_calendar events.
Proof.
  unfold in_calendar. split.
  - intros H. split; [apply H; left; reflexivity |].
    intros ev' Hin. apply H. right. exact Hin.
  - intros [H1 H2] ev' [<- | Hin]; [exact H1 | apply H2, Hin].
Qed.

Lemma in_calendar_dec (events : list event) :
  {in_calendar events} + {~ in_calendar events}.
Proof.
  induction events as [| ev events IH].
  - left. intros ev [].
  - destruct (representable (event_ts ev)) eqn:Hr.
    + apply representable_iff in Hr. destruct IH as [IH | IH].
      * left. apply in_calendar_cons. split; assumption.
      * right. intros H. apply in_calendar_cons in H. tauto.
    + right. intros H. apply in_calendar_cons in H. destruct H as [H _].
      apply representable_iff in H. congruence.
Qed.

Lemma classify_ok (device_mac : string) (acc : list event_data) (t : Z)
    (ev : event) :
  dt_min <= event_ts ev <= dt_max ->
  classify device_mac (acc, t) ev =
  Return (acc ++ presses device_mac [ev], Z.max t (event_ts ev)).
Proof.
  intros Hr. apply representable_iff in Hr.
  unfold classify, astimezone_utc, presses, is_button_press. rewrite Hr.
  cbn [filter].
  replace (if event_ts ev >? t then event_ts ev else t)
    with (Z.max t (event_ts ev))
    by (destruct (Z.gtb_spec (event_ts ev) t); lia).
  destruct (event_type ev =? EVENT_TYPE_BUTTON_PRESS); cbn [map].
  - reflexivity.
  - rewrite app_nil_r. reflexivity.
Qed.

Lemma classify_overflow (device_mac : string) (acc : list event_data * Z)
    (ev : event) :
  representable (event_ts ev) = false ->
  classify device_mac acc ev = Raised OverflowError.
Proof.
  intros Hr. destruct acc as [new latest].
  unfold classify, astimezone_utc. rewrite Hr.
  destruct (event_type ev =? EVENT_TYPE_BUTTON_PRESS); reflexivity.
Qed.

Lemma classify_all_ok (device_mac : string) (events : list event) :
  in_calendar events ->
  forall acc t,
    classify_all device_mac events (acc, t) =
    Return (acc ++ presses device_mac events, latest_after t events).
Proof.
  unfold latest_after.
  induction events as [| ev events IH]; intros Hc acc t.
  - cbn. rewrite app_nil_r. reflexivity.
  - apply in_calendar_cons in Hc. destruct Hc as [Hev Hc].
    cbn [classify_all fold_left]. rewrite (classify_ok _ _ _ _ Hev).
    rewrite (IH Hc). rewrite <- app_assoc. f_equal. f_equal. f_equal.
    unfold presses. cbn [filter].
    destruct (is_button_press ev); reflexivity.
Qed.

Lemma classify_all_overflow (device_mac : string) (events : list event) :
  ~ in_calendar events ->
  forall acc, classify_all device_mac events acc = Raised OverflowError.
Proof.
  induction events as [| ev events IH]; intros Hc acc.
  - exfalso. apply Hc. intros ev [].
  - cbn [classify_all].
    destruct (representable (event_ts ev)) eqn:Hr.
    + destruct acc as [new latest].
      rewrite (classify_ok _ _ _ _ (proj1 (representable_iff _) Hr)).
      apply IH. intros H. apply Hc, in_calendar_cons.
      split; [apply representable_iff, Hr | exact H].
    + rewrite (classify_overflow _ _ _ Hr). reflexivity.
Qed.

Lemma latest_after_in_calendar (events : list event) (t : Z) :
  in_calendar events ->
  t < latest_after t events ->
  dt_min <= latest_after t events.
Proof.
  intros Hc Hlt. unfold latest_after in *. revert t Hlt.
  induction events as [| ev events IH]; intros t Hlt; cbn [fold_left] in *.
  - lia.
  - apply in_calendar_cons in Hc. destruct Hc as [Hev Hc].
    destruct (Z.lt_ge_cases (Z.max t (event_ts ev))
                (fold_left (fun m ev0 => Z.max m (event_ts ev0)) events
                   (Z.max t (event_ts ev)))) as [H | H].
    + apply (IH Hc _ H).
    + assert (Hge : forall l m,
                 m <= fold_left (fun m ev0 => Z.max m (event_ts ev0)) l m).
      { intros l. induction l as [| x l IHl]; intros m; cbn [fold_left];
          [lia | specialize (IHl (Z.max m (event_ts x))); lia]. }
      specialize (Hge events (Z.max t (event_ts ev))). lia.
Qed.

Lemma poll_query_ok (now : Z) (srv : endpoint) (client : WyzeClient)
    (device_mac : string) (w : world) (events : list event) :
  client device_mac (last_check_time w) now 10 = Return events ->
  in_calendar events ->
  advance_fits (last_check_time w) events ->
  poll_for_doorbell_events now srv client device_mac w =
  (Return tt,
   mkWorld (next_check_time (last_check_time w) now events)
           (queries w ++ [mkQuery device_mac (last_check_time w) now 10])
           (posts w ++ map payload_of (rev (presses device_mac events)))
           (stdout w ++ PollingBetween (last_check_time w) now
              :: press_lines srv (posts w) (presses device_mac events))).
Proof.
  intros Hq Hc Hfit.
  unfold poll_for_doorbell_events, bind, try_except, get_last_check_time,
    print, client_events_list, lift_result.
  cbn [fst snd last_check_time queries posts stdout]. rewrite Hq.
  rewrite (classify_all_ok _ _ Hc). cbn [app].
  unfold next_check_time, press_lines, set_last_check_time, datetime_plus.
  assert (Hplus : (latest_after (last_check_time w) events
                     >? last_check_time w) = true ->
                  representable (latest_after (last_check_time w) events
                                 + one_millisecond) = true).
  { intros Hg. apply Z.gtb_lt in Hg. apply representable_iff.
    pose proof (latest_after_in_calendar events _ Hc Hg).
    specialize (Hfit Hg). unfold one_millisecond in *. lia. }
  destruct (presses device_mac events) as [| d ds] eqn:Hp.
  - cbn [last_check_time queries posts stdout rev map].
    destruct (latest_after (last_check_time w) events >? last_check_time w).
    + rewrite (Hplus eq_refl). cbn.
      rewrite app_nil_r, <- app_assoc. reflexivity.
    + cbn. rewrite app_nil_r, <- app_assoc. reflexivity.
  - cbn [last_check_time queries posts stdout].
    rewrite for_each_send_spec.
    cbn [last_check_time queries posts stdout].
    destruct (latest_after (last_check_time w) events >? last_check_time w).
    + rewrite (Hplus eq_refl). cbn [last_check_time queries posts stdout].
      rewrite <- !app_assoc. reflexivity.
    + cbn [last_check_time queries posts stdout].
      rewrite <- !app_assoc. reflexivity.
Qed.

Lemma poll_query_raises (now : Z) (srv : endpoint) (client : WyzeClient)
    (device_mac : string) (w : world) (e : exn) :
  client device_mac (last_check_time w) now 10 = Raised e ->
  poll_for_doorbell_events now srv client device_mac w =
  (Return tt,
   mkWorld (last_check_time w)
           (queries w ++ [mkQuery device_mac (last_check_time w) now 10])
           (posts w)
           (stdout w ++ [PollingBetween (last_check_time w) now;
                         PollingError e])).
Proof.
  intros Hq.
  unfold poll_for_doorbell_events, bind, try_except, get_last_check_time,
    print, client_events_list.
  cbn [fst snd last_check_time queries posts stdout]. rewrite Hq.
  cbn [last_check_time queries posts stdout].
  rewrite <- app_assoc. reflexivity.
Qed.

(** A returned timestamp outside the calendar: the conversion at line 99 or
    104 raises before any request, and the handler of line 125 leaves the
    watermark alone. *)
Lemma poll_query_early_overflow (now : Z) (srv : endpoint)
    (client : WyzeClient) (device_mac : string) (w : world)
    (events : list event) :
  client device_mac (last_check_time w) now 10 = Return events ->
  ~ in_calendar events ->
  poll_for_doorbell_events now srv client device_mac w =
  (Return tt,
   mkWorld (last_check_time w)
           (queries w ++ [mkQuery device_mac (last_check_time w) now 10])
           (posts w)
           (stdout w ++ [PollingBetween (last_check_time w) now;
                         PollingError OverflowError])).
Proof.
  intros Hq Hc.
  unfold poll_for_doorbell_events, bind, try_except, get_last_check_time,
    print, client_events_list, lift_result.
  cbn [fst snd last_check_time queries posts stdout]. rewrite Hq.
  rewrite (classify_all_overflow _ _ Hc).
  cbn [last_check_time queries posts stdout].
  rewrite <- app_assoc. reflexivity.
Qed.

(** The latest returned timestamp within a millisecond of the end of the
    calendar: the requests are made, then line 120 raises and the watermark
    stays. *)
Lemma poll_query_late_overflow (now : Z) (srv : endpoint)
    (client : WyzeClient) (device_mac : string) (w : world)
    (events : list event) :
  client device_mac (last_check_time w) now 10 = Return events ->
  in_calendar events ->
  ~ advance_fits (last_check_time w) events ->
  poll_for_doorbell_events now srv client device_mac w =
  (Return tt,
   mkWorld (last_check_time w)
           (queries w ++ [mkQuery device_mac (last_check_time w) now 10])
           (posts w ++ map payload_of (rev (presses device_mac events)))
           (stdout w ++ PollingBetween (last_check_time w) now
              :: (press_lines srv (posts w) (presses device_mac events)
                  ++ [PollingError OverflowError]))).
Proof.
  intros Hq Hc Hfit.
  assert (Hg : last_check_time w < latest_after (last_check_time w) events).
  { destruct (Z.lt_ge_cases (last_check_time w)
                (latest_after (last_check_time w) events)) as [H | H];
      [exact H |]. exfalso. apply Hfit. intros H'. lia. }
  assert (Hr : representable (latest_after (last_check_time w) events
                              + one_millisecond) = false).
  { destruct (representable _) eqn:Hr; [| reflexivity].
    exfalso. apply Hfit. intros _. apply representable_iff in Hr. lia. }
  unfold poll_for_doorbell_events, bind, try_except, get_last_check_time,
    print, client_events_list, lift_result.
  cbn [fst snd last_check_time queries posts stdout]. rewrite Hq.
  rewrite (classify_all_ok _ _ Hc). cbn [app].
  unfold press_lines, set_last_check_time, datetime_plus.
  apply Z.gtb_lt in Hg.
  destruct (presses device_mac events) as [| d ds] eqn:Hp.
  - cbn [last_check_time queries posts stdout rev map].
    rewrite Hg, Hr. cbn [last_check_time queries posts stdout].
    rewrite app_nil_r, <- !app_assoc. reflexivity.
  - cbn [last_check_time queries posts stdout].
    rewrite for_each_send_spec.
    cbn [last_check_time queries posts stdout].
    rewrite Hg, Hr. cbn [last_check_time queries posts stdout].
    rewrite <- !app_assoc. reflexivity.
Qed.

Lemma advance_fits_dec (start_time : Z) (events : list event) :
  {advance_fits start_time events} + {~ advance_fits start_time events}.
Proof.
  unfold advance_fits.
  destruct (Z_lt_dec start_time (latest_after start_time events)) as [Hl | Hl].
  - destruct (Z_le_dec (latest_after start_time events + one_millisecond)
                dt_max) as [Hm | Hm].
    + left. intros _. exact Hm.
    + right. intros H. apply Hm, H, Hl.
  - left. intros H. contradiction.
Qed.
(** ** Facts about one cycle *)

Lemma latest_after_ge_start (events : list event) :
  forall t, t <= latest_after t events.
Proof.
  unfold latest_after.
  induction events as [| ev events IH]; intros t; cbn [fold_left].
  - lia.
  - specialize (IH (Z.max t (event_ts ev))). lia.
Qed.

Lemma latest_after_ge (events : list event) :
  forall t ev, In ev events -> event_ts ev <= latest_after t events.
Proof.
  induction events as [| ev' events IH]; intros t ev Hin.
  - destruct Hin.
  - destruct Hin as [-> | Hin].
    + pose proof (latest_after_ge_start events (Z.max t (event_ts ev))) as H.
      unfold latest_after in *. cbn [fold_left]. lia.
    + unfold latest_after in *. cbn [fold_left]. apply IH, Hin.
Qed.

Lemma latest_after_cases (events : list event) :
  forall t,
    latest_after t events = t \/
    exists ev, In ev events /\ event_ts ev = latest_after t events.
Proof.
  induction events as [| ev' events IH]; intros t.
  - left. reflexivity.
  - unfold latest_after in *. cbn [fold_left].
    destruct (IH (Z.max t (event_ts ev'))) as [Heq | (ev & Hin & Heq)].
    + rewrite Heq.
      destruct (Z.max_spec t (event_ts ev')) as [[_ Hm] | [_ Hm]]; rewrite Hm.
      * right. exists ev'. split; [left; reflexivity | reflexivity].
      * left. reflexivity.
    + right. exists ev. split; [right; exact Hin | exact Heq].
Qed.

Lemma latest_after_old (events : list event) (t : Z) :
  (forall ev, In ev events -> event_ts ev <= t) ->
  latest_after t events = t.
Proof.
  intros Hold.
  destruct (latest_after_cases events t) as [Heq | (ev & Hin & Heq)].
  - exact Heq.
  - pose proof (latest_after_ge_start events t). specialize (Hold ev Hin). lia.
Qed.

Lemma latest_after_new (events : list event) (t : Z) :
  (exists ev, In ev events /\ t < event_ts ev) ->
  t < latest_after t events /\ is_latest_of (latest_after t events) events.
Proof.
  intros (ev & Hin & Hlt).
  pose proof (latest_after_ge events t ev Hin) as Hge.
  split; [lia |].
  split.
  - destruct (latest_after_cases events t) as [Heq | Hex]; [lia | exact Hex].
  - intros ev'. apply latest_after_ge.
Qed.

(** The four ways through a cycle: the query raises; a returned timestamp
    does not convert; the increment of line 120 overflows; none of these. *)
Ltac poll_paths now srv client device_mac w events e Hq Hc Hfit :=
  destruct (client device_mac (last_check_time w) now 10)
    as [events | e] eqn:Hq;
  [ destruct (in_calendar_dec events) as [Hc | Hc];
    [ destruct (advance_fits_dec (last_check_time w) events) as [Hfit | Hfit];
      [ rewrite (poll_query_ok now srv client device_mac w events Hq Hc Hfit)
      | rewrite (poll_query_late_overflow now srv client device_mac w events
                   Hq Hc Hfit) ]
    | rewrite (poll_query_early_overflow now srv client device_mac w events
                 Hq Hc) ]
  | rewrite (poll_query_raises now srv client device_mac w e Hq) ].

Lemma poll_returns (now : Z) (srv : endpoint) (client : WyzeClient)
    (device_mac : string) (w : world) :
  fst (poll_for_doorbell_events now srv client device_mac w) = Return tt.
Proof.
  poll_paths now srv client device_mac w events e Hq Hc Hfit; reflexivity.
Qed.

Lemma poll_query_sent (now : Z) (srv : endpoint) (client : WyzeClient)
    (device_mac : string) (w : world) :
  queries (exec (poll_for_doorbell_events now srv client device_mac) w) =
  queries w ++ [mkQuery device_mac (last_check_time w) now 10].
Proof.
  unfold exec.
  poll_paths now srv client device_mac w events e Hq Hc Hfit; reflexivity.
Qed.

Lemma in_presses (device_mac : string) (events : list event) (d : event_data) :
  In d (presses device_mac events) <->
  exists ev, In ev events /\ is_button_press ev = true /\
             d = event_data_of device_mac ev.
Proof.
  unfold presses. rewrite in_map_iff. split.
  - intros (ev & <- & Hin). apply filter_In in Hin. destruct Hin. eauto.
  - intros (ev & Hin & Hp & ->). exists ev. split; [reflexivity |].
    apply filter_In. auto.
Qed.

Lemma in_calendar_nil : in_calendar [].
Proof. intros ev []. Qed.

Lemma advance_fits_old (start_time : Z) (events : list event) :
  (forall ev, In ev events -> event_ts ev <= start_time) ->
  advance_fits start_time events.
Proof.
  intros Hold Hlt. rewrite (latest_after_old _ _ Hold) in Hlt. lia.
Qed.

Lemma inside_calendar_in (events : list event) :
  inside_calendar events -> in_calendar events.
Proof.
  intros H ev Hin. destruct (H ev Hin). unfold one_millisecond in *. lia.
Qed.

Lemma inside_calendar_fits (start_time : Z) (events : list event) :
  inside_calendar events -> advance_fits start_time events.
Proof.
  intros H Hlt.
  destruct (latest_after_cases events start_time) as [Heq | (ev & Hin & Heq)];
    [lia |].
  rewrite <- Heq. apply H, Hin.
Qed.

Lemma quiet_cycle_effect
    (now : Z) (srv : endpoint) (client : WyzeClient) (device_mac : string)
    (w : world) :
  client device_mac (last_check_time w) now 10 = Return [] ->
  last_check_time (exec (poll_for_doorbell_events now srv client device_mac) w)
    = now /\
  posts (exec (poll_for_doorbell_events now srv client device_mac) w)
    = posts w.
Proof.
  intros Hq. unfold exec.
  rewrite (poll_query_ok _ _ _ _ _ _ Hq in_calendar_nil
             (advance_fits_old _ _ (fun ev (H : In ev []) => match H with end))).
  cbn [snd last_check_time posts presses filter map rev].
  split; [| apply app_nil_r].
  unfold next_check_time.
  rewrite latest_after_old by (intros ev []).
  rewrite Z.gtb_ltb, Z.ltb_irrefl. reflexivity.
Qed.

(** ** The claims about one cycle *)

(** C4. A cycle whose query succeeds and returns no event sets the watermark
    to the window end, the clock reading taken at the start of that cycle;
    nothing is posted, and the query of the next cycle starts at that
    instant. *)
Theorem quiet_window_advances_to_now
    (now : Z) (srv : endpoint) (client : WyzeClient) (device_mac : string)
    (w : world) :
  client device_mac (last_check_time w) now 10 = Return [] ->
  let w' := exec (poll_for_doorbell_events now srv client device_mac) w in
  returns (poll_for_doorbell_events now srv client device_mac) w /\
  last_check_time w' = now /\
  posts w' = posts w /\
  forall now' srv' client' device_mac',
    queries (exec (poll_for_doorbell_events now' srv' client' device_mac') w')
    = queries w' ++ [mkQuery device_mac' now now' 10].
Proof.
  intros Hq w'.
  destruct (quiet_cycle_effect now srv client device_mac w Hq)
    as [Hlct Hposts].
  split; [exists tt; apply poll_returns |].
  split; [exact Hlct |].
  split; [exact Hposts |].
  intros. rewrite poll_query_sent. unfold w'. rewrite Hlct. reflexivity.
Qed.

Lemma quiet_window_advances_to_now_witness :
  answers [] sample_mac (last_check_time (initial_world (seconds 100)))
          (seconds 105) 10 = Return [] /\
  last_check_time
    (exec (poll_for_doorbell_events (seconds 105) accepting (answers [])
             sample_mac)
          (initial_world (seconds 100))) = seconds 105.
Proof.
  split; [reflexivity |].
  exact (proj1 (proj2 (quiet_window_advances_to_now (seconds 105) accepting
                         (answers []) sample_mac (initial_world (seconds 100))
                         eq_refl))).
Defined.

(** C5. A cycle whose query raises returns normally, posts nothing and
    leaves the watermark as it was: the query of the next cycle starts where
    the failed one started. *)
Theorem query_failure_leaves_window_unchanged
    (now : Z) (srv : endpoint) (client : WyzeClient) (device_mac : string)
    (w : world) (e : exn) :
  client device_mac (last_check_time w) now 10 = Raised e ->
  let w' := exec (poll_for_doorbell_events now srv client device_mac) w in
  returns (poll_for_doorbell_events now srv client device_mac) w /\
  last_check_time w' = last_check_time w /\
  posts w' = posts w /\
  forall now' srv' client' device_mac',
    queries (exec (poll_for_doorbell_events now' srv' client' device_mac') w')
    = queries w' ++ [mkQuery device_mac' (last_check_time w) now' 10].
Proof.
  intros Hq w'.
  assert (Hw : w' = mkWorld (last_check_time w)
                 (queries w ++ [mkQuery device_mac (last_check_time w) now 10])
                 (posts w)
                 (stdout w ++ [PollingBetween (last_check_time w) now;
                               PollingError e])).
  { unfold w', exec. rewrite (poll_query_raises _ _ _ _ _ _ Hq). reflexivity. }
  split; [exists tt; apply poll_returns |].
  rewrite Hw. cbn [last_check_time posts].
  repeat split.
  intros. rewrite poll_query_sent. reflexivity.
Qed.

Lemma query_failure_leaves_window_unchanged_witness :
  failing Timeout sample_mac (last_check_time (initial_world (seconds 100)))
          (seconds 105) 10 = Raised Timeout /\
  last_check_time
    (exec (poll_for_doorbell_events (seconds 105) accepting (failing Timeout)
             sample_mac)
          (initial_world (seconds 100))) = seconds 85.
Proof.
  split; [reflexivity |].
  exact (proj1 (proj2 (query_failure_leaves_window_unchanged (seconds 105)
                         accepting (failing Timeout) sample_mac
                         (initial_world (seconds 100)) Timeout eq_refl))).
Defined.

(** C10, as the code has it.  A cycle whose query succeeds and returns at
    least one event, every returned timestamp converting to UTC inside the
    calendar and none of them later than the window start, sets the
    watermark to the window end (the clock reading of that cycle) and not to
    a timestamp plus one millisecond; the button presses among the events
    are posted all the same. *)
Theorem stale_events_advance_to_now
    (now : Z) (srv : endpoint) (client : WyzeClient) (device_mac : string)
    (w : world) (events : list event) :
  client device_mac (last_check_time w) now 10 = Return events ->
  events <> [] ->
  in_calendar events ->
  (forall ev, In ev events -> event_ts ev <= last_check_time w) ->
  let w' := exec (poll_for_doorbell_events now srv client device_mac) w in
  last_check_time w' = now /\
  posts w' = posts w ++ map payload_of (rev (presses device_mac events)) /\
  forall ev, In ev events -> is_button_press ev = true ->
             In (payload_for device_mac ev) (posts w').
Proof.
  intros Hq _ Hc Hold w'.
  unfold w', exec.
  rewrite (poll_query_ok _ _ _ _ _ _ Hq Hc (advance_fits_old _ _ Hold)).
  cbn [snd last_check_time posts].
  split; [| split].
  - unfold next_check_time. rewrite (latest_after_old _ _ Hold).
    rewrite Z.gtb_ltb, Z.ltb_irrefl. reflexivity.
  - reflexivity.
  - intros ev Hin Hp. apply in_or_app. right.
    unfold payload_for. apply in_map, in_rev. rewrite rev_involutive.
    apply in_presses. eauto.
Qed.

Lemma stale_events_advance_to_now_witness :
  let w := initial_world (seconds 100) in
  let events := [press (seconds 85); motion (seconds 84)] in
  let w' := exec (poll_for_doorbell_events (seconds 105) accepting
                    (answers events) sample_mac) w in
  answers events sample_mac (last_check_time w) (seconds 105) 10
    = Return events /\
  events <> [] /\
  in_calendar events /\
  (forall ev, In ev events -> event_ts ev <= last_check_time w) /\
  last_check_time w' = seconds 105 /\
  In (payload_for sample_mac (press (seconds 85))) (posts w').
Proof.
  intros w events w'.
  assert (Hold : forall ev, In ev events -> event_ts ev <= last_check_time w).
  { intros ev [<- | [<- | []]]; vm_compute; discriminate. }
  assert (Hc : in_calendar events).
  { intros ev [<- | [<- | []]]; split; vm_compute; discriminate. }
  assert (Hne : events <> []) by discriminate.
  split; [reflexivity |].
  split; [exact Hne |].
  split; [exact Hc |].
  split; [exact Hold |].
  pose proof (stale_events_advance_to_now (seconds 105) accepting
                (answers events) sample_mac w events eq_refl Hne Hc Hold) as H.
  cbv zeta in H. destruct H as (Hlct & _ & Hposted).
  split; [exact Hlct |].
  apply Hposted; [left; reflexivity | reflexivity].
Defined.

(** C10 as first worded fails at the edge of the calendar.  The query
    returns one button press stamped 0001-01-01T00:00 at offset +05:00,
    which is not later than the window start; its conversion to UTC at line
    99 raises OverflowError inside the try: nothing is posted and the
    watermark stays at 85 s instead of moving to the clock reading. *)
Lemma stale_event_before_calendar_counterexample :
  let w := initial_world (seconds 100) in
  let events := [press before_calendar] in
  let w' := exec (poll_for_doorbell_events (seconds 105) accepting
                    (answers events) sample_mac) w in
  answers events sample_mac (last_check_time w) (seconds 105) 10
    = Return events /\
  events <> [] /\
  (forall ev, In ev events -> event_ts ev <= last_check_time w) /\
  last_check_time w' = seconds 85 /\
  last_check_time w' <> seconds 105 /\
  posts w' = [].
Proof.
  intros w events w'.
  split; [reflexivity |].
  split; [discriminate |].
  split; [intros ev [<- | []]; vm_compute; discriminate |].
  split; [reflexivity |].
  split; [vm_compute; discriminate | reflexivity].
Qed.

(** C3, as the code has it.  A cycle whose query succeeds and returns at
    least one event later than the window start, every returned timestamp
    lying in the calendar at least a millisecond before its end, sets the
    watermark to the largest timestamp among all the returned events, button
    presses or not, plus one millisecond. *)
Theorem new_events_advance_past_latest
    (now : Z) (srv : endpoint) (client : WyzeClient) (device_mac : string)
    (w : world) (events : list event) :
  client device_mac (last_check_time w) now 10 = Return events ->
  inside_calendar events ->
  (exists ev, In ev events /\ last_check_time w < event_ts ev) ->
  exists m,
    is_latest_of m events /\
    last_check_time
      (exec (poll_for_doorbell_events now srv client device_mac) w)
    = m + one_millisecond.
Proof.
  intros Hq Hc Hnew.
  destruct (latest_after_new events (last_check_time w) Hnew) as [Hlt Hmax].
  exists (latest_after (last_check_time w) events).
  split; [exact Hmax |].
  unfold exec.
  rewrite (poll_query_ok _ _ _ _ _ _ Hq (inside_calendar_in _ Hc)
             (inside_calendar_fits _ _ Hc)).
  cbn [snd last_check_time]. unfold next_check_time.
  destruct (Z.gtb_spec (latest_after (last_check_time w) events)
              (last_check_time w)); [reflexivity | lia].
Qed.

Lemma new_events_advance_past_latest_witness :
  let w := initial_world (seconds 100) in
  let events := [press (seconds 90); motion (seconds 95)] in
  answers events sample_mac (last_check_time w) (seconds 105) 10
    = Return events /\
  inside_calendar events /\
  (exists ev, In ev events /\ last_check_time w < event_ts ev) /\
  exists m,
    is_latest_of m events /\
    last_check_time
      (exec (poll_for_doorbell_events (seconds 105) accepting
               (answers events) sample_mac) w)
    = m + one_millisecond.
Proof.
  intros w events.
  assert (Hc : inside_calendar events).
  { intros ev [<- | [<- | []]]; split; vm_compute; discriminate. }
  assert (Hnew : exists ev, In ev events /\ last_check_time w < event_ts ev).
  { exists (press (seconds 90)). split; [left; reflexivity | reflexivity]. }
  split; [reflexivity |].
  split; [exact Hc |].
  split; [exact Hnew |].
  exact (new_events_advance_past_latest (seconds 105) accepting
           (answers events) sample_mac w events eq_refl Hc Hnew).
Defined.

(** C3 as the specification words it fails: the query below returns one
    event, stamped at the window start; its timestamp is the largest of the
    returned ones, yet the watermark becomes the clock reading and not that
    timestamp plus one millisecond. *)
Lemma latest_plus_epsilon_counterexample :
  let w := initial_world (seconds 100) in
  let events := [press (seconds 85)] in
  let w' := exec (poll_for_doorbell_events (seconds 105) accepting
                    (answers events) sample_mac) w in
  answers events sample_mac (last_check_time w) (seconds 105) 10
    = Return events /\
  is_latest_of (seconds 85) events /\
  last_check_time w' = seconds 105 /\
  last_check_time w' <> seconds 85 + one_millisecond.
Proof.
  intros w events w'.
  split; [reflexivity |].
  split.
  - split.
    + exists (press (seconds 85)). split; [left; reflexivity | reflexivity].
    + intros ev [<- | []]. apply Z.le_refl.
  - split; [reflexivity | vm_compute; discriminate].
Qed.

Lemma poll_ignores_answers (now : Z) (srv srv' : endpoint)
    (client : WyzeClient) (device_mac : string) (w : world) :
  posts (exec (poll_for_doorbell_events now srv client device_mac) w)
  = posts (exec (poll_for_doorbell_events now srv' client device_mac) w) /\
  last_check_time (exec (poll_for_doorbell_events now srv client device_mac) w)
  = last_check_time
      (exec (poll_for_doorbell_events now srv' client device_mac) w).
Proof.
  unfold exec.
  destruct (client device_mac (last_check_time w) now 10)
    as [events | e] eqn:Hq.
  - destruct (in_calendar_dec events) as [Hc | Hc].
    + destruct (advance_fits_dec (last_check_time w) events) as [Hfit | Hfit].
      * rewrite !(poll_query_ok _ _ _ _ _ _ Hq Hc Hfit). split; reflexivity.
      * rewrite !(poll_query_late_overflow _ _ _ _ _ _ Hq Hc Hfit).
        split; reflexivity.
    + rewrite !(poll_query_early_overflow _ _ _ _ _ _ Hq Hc).
      split; reflexivity.
  - rewrite !(poll_query_raises _ _ _ _ _ _ Hq). split; reflexivity.
Qed.

(** C7. Whatever the endpoint does with each request (any status, any
    exception), a cycle whose query succeeds returns normally, makes the
    same requests and leaves the same watermark as with an endpoint that
    accepts everything.  When the returned timestamps convert to UTC inside
    the calendar, the requests made are those of all the button presses the
    query returned; when they also leave room for the increment, the
    watermark is the advanced one. *)
Theorem delivery_failures_do_not_stop_the_cycle
    (now : Z) (srv : endpoint) (client : WyzeClient) (device_mac : string)
    (w : world) (events : list event) :
  client device_mac (last_check_time w) now 10 = Return events ->
  let w' := exec (poll_for_doorbell_events now srv client device_mac) w in
  returns (poll_for_doorbell_events now srv client device_mac) w /\
  posts w' =
    posts (exec (poll_for_doorbell_events now accepting client device_mac) w) /\
  last_check_time w' =
    last_check_time
      (exec (poll_for_doorbell_events now accepting client device_mac) w) /\
  (in_calendar events ->
   posts w' = posts w ++ map payload_of (rev (presses device_mac events))) /\
  (inside_calendar events ->
   last_check_time w' = next_check_time (last_check_time w) now events).
Proof.
  intros Hq w'.
  split; [exists tt; apply poll_returns |].
  destruct (poll_ignores_answers now srv accepting client device_mac w)
    as [Hposts Hlct].
  split; [exact Hposts |]. split; [exact Hlct |].
  split.
  - intros Hc. unfold w', exec.
    destruct (advance_fits_dec (last_check_time w) events) as [Hfit | Hfit].
    + rewrite (poll_query_ok _ _ _ _ _ _ Hq Hc Hfit). reflexivity.
    + rewrite (poll_query_late_overflow _ _ _ _ _ _ Hq Hc Hfit). reflexivity.
  - intros Hc. unfold w', exec.
    rewrite (poll_query_ok _ _ _ _ _ _ Hq (inside_calendar_in _ Hc)
               (inside_calendar_fits _ _ Hc)).
    reflexivity.
Qed.

Lemma delivery_failures_do_not_stop_the_cycle_witness :
  let w := initial_world (seconds 100) in
  let events := [press (seconds 93); motion (seconds 92);
                 press (seconds 91); press (seconds 90)] in
  let w' := exec (poll_for_doorbell_events (seconds 105) flaky
                    (answers events) sample_mac) w in
  answers events sample_mac (last_check_time w) (seconds 105) 10
    = Return events /\
  inside_calendar events /\
  map p_eventTimeUtc (posts w') = [seconds 90; seconds 91; seconds 93] /\
  last_check_time w' = seconds 93 + one_millisecond.
Proof.
  intros w events w'.
  assert (Hc : inside_calendar events).
  { intros ev [<- | [<- | [<- | [<- | []]]]]; split; vm_compute; discriminate. }
  split; [reflexivity |].
  split; [exact Hc |].
  pose proof (delivery_failures_do_not_stop_the_cycle (seconds 105) flaky
                (answers events) sample_mac w events eq_refl) as H.
  cbv zeta in H. destruct H as (_ & _ & _ & Hposts & Hlct).
  split.
  - unfold w'. rewrite (Hposts (inside_calendar_in _ Hc)). reflexivity.
  - unfold w'. rewrite (Hlct Hc). reflexivity.
Defined.

(** C9, as the code has it.  A cycle whose clock reading is before the
    watermark makes its query with that inverted window like any other and
    returns normally.  When the query returns no event, nothing is posted
    and the watermark is set to the window end; when the query raises,
    nothing is posted and the watermark stays where it was. *)
Theorem inverted_window_is_queried_as_is
    (now : Z) (srv : endpoint) (client : WyzeClient) (device_mac : string)
    (w : world) :
  now < last_check_time w ->
  let w' := exec (poll_for_doorbell_events now srv client device_mac) w in
  returns (poll_for_doorbell_events now srv client device_mac) w /\
  queries w' = queries w ++ [mkQuery device_mac (last_check_time w) now 10] /\
  (client device_mac (last_check_time w) now 10 = Return [] ->
   posts w' = posts w /\ last_check_time w' = now) /\
  (forall e, client device_mac (last_check_time w) now 10 = Raised e ->
   posts w' = posts w /\ last_check_time w' = last_check_time w).
Proof.
  intros _ w'.
  split; [exists tt; apply poll_returns |].
  split; [apply poll_query_sent |].
  split.
  - intros Hq.
    destruct (quiet_cycle_effect now srv client device_mac w Hq)
      as [Hlct Hposts].
    split; assumption.
  - intros e Hq. unfold w', exec.
    rewrite (poll_query_raises _ _ _ _ _ _ Hq). split; reflexivity.
Qed.

Lemma inverted_window_is_queried_as_is_witness :
  let w := initial_world (seconds 100) in
  let w' := exec (poll_for_doorbell_events (seconds 80) accepting
                    (answers []) sample_mac) w in
  seconds 80 < last_check_time w /\
  posts w' = [] /\ last_check_time w' = seconds 80.
Proof.
  intros w w'.
  assert (Hinv : seconds 80 < last_check_time w) by reflexivity.
  split; [exact Hinv |].
  pose proof (inverted_window_is_queried_as_is (seconds 80) accepting
                (answers []) sample_mac w Hinv) as H.
  cbv zeta in H. destruct H as (_ & _ & Hquiet & _).
  exact (Hquiet eq_refl).
Defined.

(** C9 as the specification words it fails twice.  With the clock set back
    to 80 s and the watermark at 85 s: when the query raises, the watermark
    does not move to the window end; when the query returns a button press,
    it is posted. *)
Lemma inverted_window_counterexample :
  let w := initial_world (seconds 100) in
  let stuck := exec (poll_for_doorbell_events (seconds 80) accepting
                       (failing ConnectionError) sample_mac) w in
  let delivering := exec (poll_for_doorbell_events (seconds 80) accepting
                            (answers [press (seconds 82)]) sample_mac) w in
  seconds 80 < last_check_time w /\
  last_check_time stuck = seconds 85 /\
  last_check_time stuck <> seconds 80 /\
  posts delivering = [payload_for sample_mac (press (seconds 82))].
Proof.
  intros w stuck delivering.
  split; [reflexivity |].
  split; [reflexivity |].
  split; [vm_compute; discriminate | reflexivity].
Qed.

(** C6 fails on the code.  The list of presses is only reversed (line 112),
    never sorted: when the service returns three button presses stamped
    90 s, 91 s and 92 s in that order, they are posted newest first. *)
Theorem ascending_answer_is_posted_newest_first :
  let events := [press (seconds 90); press (seconds 91); press (seconds 92)] in
  map p_eventTimeUtc
    (posts (exec (poll_for_doorbell_events (seconds 105) accepting
                    (answers events) sample_mac)
                 (initial_world (seconds 100))))
  = [seconds 92; seconds 91; seconds 90].
Proof.
  reflexivity.
Qed.

(** ** The claim about [send_to_csharp_bridge] *)

Lemma delivery_line_report (srv : endpoint) (d : event_data) (w : world) :
  delivery_line srv d w = report (srv (posts w) (payload_of d)).
Proof.
  unfold delivery_line, exec. rewrite send_to_csharp_bridge_spec.
  cbn [snd stdout].
  change [SendingEvent; report (srv (posts w) (payload_of d))]
    with ([SendingEvent] ++ [report (srv (posts w) (payload_of d))]).
  rewrite app_assoc. apply last_last.
Qed.

(** C8, as the code has it.  [send_to_csharp_bridge] never raises and makes
    one request.  It reports the delivery as done exactly when a response
    came back whose status is outside 400..599 (so also for a 1xx or 3xx
    status); it reports a failure exactly when the status is in 400..599 or
    the request raised. *)
Theorem send_reports_success_unless_4xx_5xx
    (srv : endpoint) (d : event_data) (w : world) :
  returns (send_to_csharp_bridge srv d) w /\
  posts (exec (send_to_csharp_bridge srv d) w) = posts w ++ [payload_of d] /\
  (forall s,
     delivery_line srv d w = BridgeResponded s <->
     srv (posts w) (payload_of d) = Response s /\ ~ (400 <= s < 600)) /\
  ((exists e, delivery_line srv d w = ErrorSending e \/
              delivery_line srv d w = UnexpectedPostError e) <->
   (exists s, srv (posts w) (payload_of d) = Response s /\ 400 <= s < 600) \/
   (exists e, srv (posts w) (payload_of d) = PostRaises e)).
Proof.
  split; [exists tt; rewrite send_to_csharp_bridge_spec; reflexivity |].
  split; [unfold exec; rewrite send_to_csharp_bridge_spec; reflexivity |].
  rewrite delivery_line_report.
  destruct (srv (posts w) (payload_of d)) as [s0 | e0]; cbn [report].
  - assert (Hb : (400 <=? s0) && (s0 <? 600) = true <-> 400 <= s0 < 600)
      by (rewrite andb_true_iff, Z.leb_le, Z.ltb_lt; tauto).
    destruct ((400 <=? s0) && (s0 <? 600)).
    + assert (Hr : 400 <= s0 < 600) by (apply Hb; reflexivity).
      split.
      * intros s. split; [discriminate |].
        intros [H1 H2]. inversion H1; subst. contradiction.
      * split.
        -- intros _. left. exists s0. split; [reflexivity | exact Hr].
        -- intros _. exists (HTTPError s0). left. reflexivity.
    + assert (Hn : ~ (400 <= s0 < 600))
        by (intros Hr; apply Hb in Hr; discriminate Hr).
      split.
      * intros s. split.
        -- intros H. inversion H; subst. split; [reflexivity | exact Hn].
        -- intros [H _]. inversion H. reflexivity.
      * split.
        -- intros (e & [H | H]); discriminate H.
        -- intros [(s' & H1 & H2) | (e & H)].
           ++ inversion H1; subst. contradiction.
           ++ discriminate H.
  - split; [intros s; split | split].
    + destruct (is_RequestException e0); discriminate.
    + intros [H _]. discriminate H.
    + intros _. right. exists e0. reflexivity.
    + intros _. exists e0.
      destruct (is_RequestException e0); [left | right]; reflexivity.
Qed.

(** C8 as the specification words it fails: the endpoint answers 304, which
    is not a 2xx status, and the delivery is reported as done. *)
Lemma not_modified_counterexample :
  let d := event_data_of sample_mac (press (seconds 90)) in
  let w := initial_world (seconds 100) in
  not_modified (posts w) (payload_of d) = Response 304 /\
  ~ (200 <= 304 < 300) /\
  delivery_line not_modified d w = BridgeResponded 304.
Proof.
  intros d w.
  split; [reflexivity |].
  split; [lia | reflexivity].
Qed.

(** ** Runs of several cycles *)

Lemma main_loop_cons (srv : endpoint) (device_mac : string)
    (c : cycle) (cs : list cycle) (w : world) :
  main_loop srv device_mac (c :: cs) w =
  main_loop srv device_mac cs (exec (poll_cycle srv device_mac c) w).
Proof.
  cbn [main_loop]. unfold bind, exec, poll_cycle.
  pose proof (poll_returns (current_time c) srv (events_list c) device_mac w)
    as Hret.
  destruct (poll_for_doorbell_events _ _ _ _ w) as [r w'].
  cbn [fst] in Hret. subst r. reflexivity.
Qed.

Lemma main_loop_returns (srv : endpoint) (device_mac : string)
    (cs : list cycle) :
  forall w, fst (main_loop srv device_mac cs w) = Return tt.
Proof.
  induction cs as [| c cs IH]; intros w.
  - reflexivity.
  - rewrite main_loop_cons. apply IH.
Qed.

Lemma world_after_0 (srv : endpoint) (device_mac : string)
    (cs : list cycle) (w : world) :
  world_after srv device_mac cs 0 w = w.
Proof. reflexivity. Qed.

Lemma world_after_cons (srv : endpoint) (device_mac : string)
    (c : cycle) (cs : list cycle) (n : nat) (w : world) :
  world_after srv device_mac (c :: cs) (S n) w =
  world_after srv device_mac cs n (exec (poll_cycle srv device_mac c) w).
Proof.
  unfold world_after. cbn [firstn]. unfold exec at 1.
  rewrite main_loop_cons. reflexivity.
Qed.

Lemma world_after_step (srv : endpoint) (device_mac : string) :
  forall (n : nat) (cs : list cycle) (w : world) (c : cycle),
    nth_error cs n = Some c ->
    world_after srv device_mac cs (S n) w =
    exec (poll_cycle srv device_mac c) (world_after srv device_mac cs n w).
Proof.
  induction n as [| n IH]; intros cs w c Hn.
  - destruct cs as [| c0 cs]; [discriminate |].
    cbn in Hn. injection Hn as ->.
    rewrite world_after_cons, !world_after_0. reflexivity.
  - destruct cs as [| c0 cs]; [discriminate |].
    cbn [nth_error] in Hn.
    rewrite !world_after_cons. apply IH, Hn.
Qed.


Lemma proper_windows_nth (srv : endpoint) (device_mac : string) :
  forall (n : nat) (cs : list cycle) (w : world) (c : cycle),
    proper_windows srv device_mac cs w ->
    nth_error cs n = Some c ->
    last_check_time (world_after srv device_mac cs n w) < current_time c.
Proof.
  induction n as [| n IH]; intros cs w c Hp Hn.
  - destruct cs as [| c0 cs]; [discriminate |].
    cbn in Hn. injection Hn as ->. rewrite world_after_0. apply Hp.
  - destruct cs as [| c0 cs]; [discriminate |].
    cbn [nth_error] in Hn. rewrite world_after_cons.
    apply IH; [apply Hp | exact Hn].
Qed.





(** ** Runs against a service with a fixed store *)

Lemma strictly_increasing_NoDup (store : list event) :
  strictly_increasing store -> NoDup store.
Proof.
  intros Hs.
  apply Sorted_StronglySorted in Hs; [| intros a b c; apply Z.lt_trans].
  induction Hs as [| ev store _ IH Hall]; constructor; [| exact IH].
  intros Hin. rewrite Forall_forall in Hall.
  specialize (Hall ev Hin). lia.
Qed.

Lemma payload_for_injective (device_mac : string) (a b : event) :
  payload_for device_mac a = payload_for device_mac b -> a = b.
Proof.
  destruct a, b. unfold payload_for, payload_of, event_data_of. cbn.
  intros H. injection H as -> ->. reflexivity.
Qed.

Lemma payload_for_time (device_mac : string) (ev : event) :
  p_eventTimeUtc (payload_for device_mac ev) = event_ts ev.
Proof. reflexivity. Qed.

Lemma posted_presses (device_mac : string) (events : list event) :
  map payload_of (rev (presses device_mac events)) =
  map (payload_for device_mac) (rev (filter is_button_press events)).
Proof.
  unfold presses, payload_for. rewrite <- map_rev, map_map. reflexivity.
Qed.

Lemma NoDup_map_payload_for (device_mac : string) (l : list event) :
  NoDup l -> NoDup (map (payload_for device_mac) l).
Proof.
  apply NoDup_map_NoDup_ForallPairs.
  intros a b _ _. apply payload_for_injective.
Qed.

(** What the service answers when the window holds no more stored events
    than the cap. *)
Lemma service_answer (shuffle : Z -> Z -> list event -> list event)
    (store : list event) (device_mac : string) (a b : Z) :
  (forall x y l, Permutation (shuffle x y l) l) ->
  (List.length (stored_in store (mkQuery device_mac a b 10)) <= 10)%nat ->
  exists events,
    service shuffle store device_mac a b 10 = Return events /\
    Permutation events (filter (in_window a b) store).
Proof.
  intros Hperm Hcap. unfold stored_in in Hcap. cbn in Hcap.
  exists (shuffle a b (filter (in_window a b) store)).
  split; [| apply Hperm].
  unfold service. f_equal. apply firstn_all2.
  rewrite (Permutation_length (Hperm a b _)).
  change (Z.to_nat 10) with 10%nat. exact Hcap.
Qed.

Lemma queries_main_loop (srv : endpoint) (device_mac : string)
    (cs : list cycle) :
  forall w q,
    In q (queries w) -> In q (queries (exec (main_loop srv device_mac cs) w)).
Proof.
  induction cs as [| c cs IH]; intros w q Hin.
  - exact Hin.
  - unfold exec. rewrite main_loop_cons. apply IH.
    unfold poll_cycle. rewrite poll_query_sent.
    apply in_or_app. left. exact Hin.
Qed.

Lemma in_window_bounds (a b : Z) (ev : event) :
  in_window a b ev = true <-> a <= event_ts ev <= b.
Proof.
  unfold in_window. rewrite andb_true_iff, !Z.leb_le. tauto.
Qed.

(** The watermark after a cycle that got events of the window: it is past
    the old one, past every event returned, and at most one millisecond
    past the clock reading. *)
Lemma next_check_time_bounds (start_time now : Z) (events : list event) :
  start_time < now ->
  (forall ev, In ev events -> start_time <= event_ts ev <= now) ->
  start_time < next_check_time start_time now events /\
  next_check_time start_time now events <= now + one_millisecond /\
  (forall ev, In ev events ->
     event_ts ev < next_check_time start_time now events).
Proof.
  intros Hlt Hwin.
  assert (Hle : latest_after start_time events <= now).
  { destruct (latest_after_cases events start_time) as [-> | (ev & Hin & <-)].
    - lia.
    - apply Hwin, Hin. }
  pose proof (latest_after_ge_start events start_time) as Hge.
  unfold next_check_time, one_millisecond.
  destruct (Z.gtb_spec (latest_after start_time events) start_time) as [Hg | Hg].
  - repeat split; try lia.
    intros ev Hin. pose proof (latest_after_ge events start_time ev Hin). lia.
  - repeat split; try lia.
    intros ev Hin. pose proof (latest_after_ge events start_time ev Hin). lia.
Qed.

Lemma filter_filter_comm {A : Type} (f g : A -> bool) (l : list A) :
  filter f (filter g l) = filter g (filter f l).
Proof.
  induction l as [| x l IH]; [reflexivity |].
  cbn [filter]. destruct (g x) eqn:Hg, (f x) eqn:Hf; cbn [filter];
    rewrite ?Hg, ?Hf, IH; reflexivity.
Qed.

Lemma filter_length_le {A : Type} (f g : A -> bool) (l : list A) :
  (forall x, In x l -> f x = true -> g x = true) ->
  (List.length (filter f l) <= List.length (filter g l))%nat.
Proof.
  induction l as [| x l IH]; intros H; [apply Nat.le_refl |].
  assert (IH' : (List.length (filter f l) <= List.length (filter g l))%nat).
  { apply IH. intros y Hy. apply H. right. exact Hy. }
  cbn [filter]. destruct (f x) eqn:Hf.
  - rewrite (H x (or_introl eq_refl) Hf). cbn [List.length]. lia.
  - destruct (g x); cbn [List.length]; lia.
Qed.

Lemma Permutation_filter {A : Type} (f : A -> bool) (l l' : list A) :
  Permutation l l' -> Permutation (filter f l) (filter f l').
Proof.
  induction 1 as [| x l l' _ IH | x y l | l l' l'' _ IH1 _ IH2]; cbn.
  - constructor.
  - destruct (f x); [constructor |]; exact IH.
  - destruct (f x), (f y); try apply Permutation_refl. constructor.
  - exact (Permutation_trans IH1 IH2).
Qed.

Lemma in_posted (device_mac : string) (events : list event) (p : payload) :
  In p (map (payload_for device_mac) (rev (filter is_button_press events))) <->
  exists ev, In ev events /\ is_button_press ev = true /\
             p = payload_for device_mac ev.
Proof.
  rewrite in_map_iff. split.
  - intros (ev & <- & Hi). apply in_rev, filter_In in Hi. exists ev. tauto.
  - intros (ev & Hi & Hp & ->). exists ev. split; [reflexivity |].
    apply in_rev. rewrite rev_involutive. apply filter_In. tauto.
Qed.

(** Events inside a window whose bounds are in the calendar convert to UTC,
    and the watermark they lead to fits when the window end leaves room for
    the increment. *)
Lemma window_in_calendar (events : list event) (a b : Z) :
  (forall ev, In ev events -> a <= event_ts ev <= b) ->
  dt_min <= a -> b <= dt_max ->
  in_calendar events.
Proof.
  intros Hwin Ha Hb ev Hin. specialize (Hwin ev Hin). lia.
Qed.

Lemma window_advance_fits (events : list event) (a b : Z) :
  (forall ev, In ev events -> a <= event_ts ev <= b) ->
  b + one_millisecond <= dt_max ->
  advance_fits a events.
Proof.
  intros Hwin Hb Hlt.
  destruct (latest_after_cases events a) as [Heq | (ev & Hin & Heq)]; [lia |].
  specialize (Hwin ev Hin). lia.
Qed.

(** One cycle against the service keeps the invariant of the span. *)
Lemma service_cycle_span (srv : endpoint) (device_mac : string)
    (shuffle : Z -> Z -> list event -> list event) (store : list event)
    (lo : Z) (done : list Z) (prev t : Z) (w : world) :
  strictly_increasing (filter is_button_press store) ->
  whole_milliseconds store ->
  (forall x y l, Permutation (shuffle x y l) l) ->
  span_invariant device_mac store lo done prev w ->
  last_check_time w < t ->
  (List.length (filter (in_window prev t) store) <= 10)%nat ->
  dt_min <= lo ->
  t + one_millisecond <= dt_max ->
  span_invariant device_mac store lo (done ++ [t]) t
    (exec (poll_cycle srv device_mac (mkCycle t (service shuffle store))) w) /\
  last_check_time
    (exec (poll_cycle srv device_mac (mkCycle t (service shuffle store))) w)
  <= t + one_millisecond.
Proof.
  intros Hs Hms Hperm (Hnd & Hpost & Hbelow & Hlow & Hpend) Hlt Hcap Hlo Hhi.
  assert (Hcap' : (List.length
                     (stored_in store
                        (mkQuery device_mac (last_check_time w) t 10))
                   <= 10)%nat).
  { unfold stored_in. cbn [q_start_time q_end_time].
    refine (Nat.le_trans _ _ _ _ Hcap). apply filter_length_le.
    intros ev Hin Hw. apply in_window_bounds in Hw. apply in_window_bounds.
    specialize (Hpend ev Hin). lia. }
  destruct (service_answer shuffle store device_mac (last_check_time w) t
              Hperm Hcap') as (events & Hq & Hev).
  assert (Hin : forall ev,
             In ev events <->
             In ev store /\ in_window (last_check_time w) t ev = true).
  { intros ev. rewrite <- filter_In.
    split; apply Permutation_in; [exact Hev | symmetry; exact Hev]. }
  assert (Hwin : forall ev, In ev events ->
                            last_check_time w <= event_ts ev <= t).
  { intros ev Hi. apply in_window_bounds, Hin, Hi. }
  destruct (next_check_time_bounds (last_check_time w) t events Hlt Hwin)
    as (Hpast & Hnear & Hbefore).
  assert (Hc : in_calendar events).
  { apply (window_in_calendar events (last_check_time w) t Hwin);
      unfold one_millisecond in Hhi; lia. }
  pose proof (window_advance_fits events (last_check_time w) t Hwin Hhi)
    as Hfit.
  assert (Hkey : forall ev, In ev store ->
            last_check_time w <= event_ts ev ->
            event_ts ev < next_check_time (last_check_time w) t events ->
            event_ts ev <= t).
  { intros ev Hst Hge Hnext.
    destruct (Z.le_gt_cases (event_ts ev) t) as [Hle | Hgt]; [exact Hle |].
    exfalso. unfold next_check_time in Hnext.
    destruct (Z.gtb_spec (latest_after (last_check_time w) events)
                (last_check_time w)) as [Hg | Hg]; [| lia].
    destruct (latest_after_cases events (last_check_time w))
      as [Heq | (ev' & Hin' & Heq)]; [lia |].
    pose proof (Hwin ev' Hin') as Hw'.
    apply Hin in Hin'. destruct Hin' as [Hst' _].
    pose proof (Hms ev Hst) as Hm. pose proof (Hms ev' Hst') as Hm'.
    unfold one_millisecond in Hnext.
    apply Z.mod_divide in Hm; [| lia]. apply Z.mod_divide in Hm'; [| lia].
    destruct Hm as [k Hk]. destruct Hm' as [k' Hk']. lia. }
  unfold exec, poll_cycle. cbn [current_time events_list].
  rewrite (poll_query_ok _ _ _ _ _ _ Hq Hc Hfit), posted_presses.
  cbn [snd last_check_time].
  split; [| exact Hnear].
  unfold span_invariant, posts_are_presses_below, below_iff_polled,
    nothing_pending.
  cbn [last_check_time posts].
  split; [| split; [| split; [| split]]].
  - apply NoDup_app.
    + exact Hnd.
    + apply NoDup_map_payload_for, NoDup_rev.
      apply (Permutation_NoDup
               (Permutation_sym (Permutation_filter is_button_press _ _ Hev))).
      rewrite filter_filter_comm.
      apply NoDup_filter, strictly_increasing_NoDup, Hs.
    + intros p Hold Hp. apply Hpost in Hold.
      destruct Hold as (ev0 & _ & _ & -> & _ & Hlt0).
      apply in_posted in Hp. destruct Hp as (ev1 & Hi1 & _ & Heq).
      apply (f_equal p_eventTimeUtc) in Heq.
      rewrite !payload_for_time in Heq. specialize (Hwin ev1 Hi1). lia.
  - intros p. rewrite in_app_iff, in_posted. split.
    + intros [Hold | (ev & Hi & Hp & ->)].
      * apply Hpost in Hold. destruct Hold as (ev & Hst & Hp & -> & Hl & Hu).
        exists ev. repeat split; try assumption. lia.
      * exists ev. pose proof (Hwin ev Hi). pose proof (Hbefore ev Hi).
        apply Hin in Hi. destruct Hi as [Hst _].
        repeat split; try assumption. lia.
    + intros (ev & Hst & Hp & -> & Hl & Hu).
      destruct (Z.lt_ge_cases (event_ts ev) (last_check_time w)) as [Hb | Hb].
      * left. apply Hpost. exists ev. repeat split; assumption.
      * right. exists ev. split; [| split; [exact Hp | reflexivity]].
        apply Hin. split; [exact Hst |]. apply in_window_bounds.
        split; [exact Hb | apply Hkey; assumption].
  - intros ev Hst Hl. split.
    + intros Hu.
      destruct (Z.lt_ge_cases (event_ts ev) (last_check_time w)) as [Hb | Hb].
      * apply (Hbelow ev Hst Hl) in Hb. destruct Hb as (t' & Ht' & Hle).
        exists t'. split; [apply in_or_app; left; exact Ht' | exact Hle].
      * exists t. split; [apply in_or_app; right; left; reflexivity |].
        apply Hkey; assumption.
    + intros (t' & Ht' & Hle). apply in_app_or in Ht'.
      destruct Ht' as [Ht' | [<- | []]].
      * assert (event_ts ev < last_check_time w)
          by (apply (Hbelow ev Hst Hl); exists t'; split; assumption).
        lia.
      * destruct (Z.lt_ge_cases (event_ts ev) (last_check_time w))
          as [Hb | Hb]; [lia |].
        apply Hbefore, Hin. split; [exact Hst |].
        apply in_window_bounds. lia.
  - lia.
  - intros ev Hst Hge.
    destruct (Z.le_gt_cases t (event_ts ev)) as [Hle | Hgt]; [exact Hle |].
    exfalso.
    assert (Hi : In ev events).
    { apply Hin. split; [exact Hst |]. apply in_window_bounds. lia. }
    specialize (Hbefore ev Hi). lia.
Qed.

(** A run against the service keeps the invariant of the span, the clock
    staying ahead and inside the calendar, with no more stored events
    between two readings than the cap. *)
Lemma service_run_span (srv : endpoint) (device_mac : string)
    (shuffle : Z -> Z -> list event -> list event) (store : list event)
    (lo : Z) :
  strictly_increasing (filter is_button_press store) ->
  whole_milliseconds store ->
  (forall x y l, Permutation (shuffle x y l) l) ->
  dt_min <= lo ->
  forall (rest done : list Z) (prev : Z) (w : world),
    span_invariant device_mac store lo done prev w ->
    clock_ahead w rest ->
    within_cap store prev rest ->
    (forall t, In t rest -> t + one_millisecond <= dt_max) ->
    exists prev',
      span_invariant device_mac store lo (done ++ rest) prev'
        (exec (main_loop srv device_mac (polls shuffle store rest)) w).
Proof.
  intros Hs Hms Hperm Hlo.
  induction rest as [| t rest IH]; intros done prev w Hinv Hclock Hcap Hhi.
  - exists prev. rewrite app_nil_r. exact Hinv.
  - cbn [polls map]. fold (polls shuffle store rest).
    unfold exec. rewrite main_loop_cons.
    fold (exec (main_loop srv device_mac (polls shuffle store rest))
            (exec (poll_cycle srv device_mac
                     (mkCycle t (service shuffle store))) w)).
    destruct Hclock as [Hlt Hsleep]. destruct Hcap as [Hcap0 Hcap].
    destruct (service_cycle_span srv device_mac shuffle store lo done prev t w
                Hs Hms Hperm Hinv Hlt Hcap0 Hlo (Hhi t (or_introl eq_refl)))
      as [Hinv' Hnear].
    replace (done ++ t :: rest) with ((done ++ [t]) ++ rest)
      by (rewrite <- app_assoc; reflexivity).
    apply (IH (done ++ [t]) t); [exact Hinv' | | exact Hcap |].
    + destruct rest as [| t' rest']; [exact I |].
      destruct Hsleep as [Hgap Hsleep].
      split; [| exact Hsleep].
      unfold POLLING_INTERVAL_SECONDS, microseconds_per_second in Hgap.
      unfold one_millisecond in Hnear. lia.
    + intros t' Ht'. apply Hhi. right. exact Ht'.
Qed.

Lemma initial_world_span (device_mac : string) (store : list event)
    (startup : Z) :
  span_invariant device_mac store (startup - startup_lookback) []
    (startup - startup_lookback) (initial_world startup).
Proof.
  unfold span_invariant, posts_are_presses_below, below_iff_polled,
    nothing_pending.
  cbn [initial_world last_check_time posts].
  split; [constructor |]. split; [| split; [| split]].
  - intros p. split; [intros [] |].
    intros (ev & _ & _ & _ & Hl & Hu). lia.
  - intros ev _ Hl. split; [lia |]. intros (t & [] & _).
  - lia.
  - intros ev _ H. exact H.
Qed.

(** C1, as the code has it.  The service holds a fixed list of events,
    stamped in whole milliseconds, whose button presses have strictly
    increasing timestamps; it answers each query with the stored events
    inside the window, in any order, cut to the cap.  The bridge starts and
    runs its loop, the clock advancing by at least the polling interval
    between two cycles and staying inside the calendar, the store holding at
    most 10 events between two successive clock readings.  Then every stored
    button press stamped between the first watermark and a clock reading of
    the run is posted exactly once, no request is made twice, and nothing
    else is posted. *)
Theorem each_press_posted_exactly_once
    (srv : endpoint) (device_mac : string)
    (shuffle : Z -> Z -> list event -> list event) (store : list event)
    (startup : Z) (times : list Z) :
  strictly_increasing (filter is_button_press store) ->
  whole_milliseconds store ->
  (forall x y l, Permutation (shuffle x y l) l) ->
  clock_readings startup times ->
  clock_in_calendar startup times ->
  within_cap store (startup - startup_lookback) times ->
  NoDup (posts (bridge_run srv device_mac shuffle store startup times)) /\
  (forall ev,
     In ev store -> is_button_press ev = true ->
     in_span startup times ev ->
     count_occ payload_eq_dec
       (posts (bridge_run srv device_mac shuffle store startup times))
       (payload_for device_mac ev) = 1%nat) /\
  (forall p,
     In p (posts (bridge_run srv device_mac shuffle store startup times)) ->
     exists ev,
       In ev store /\ is_button_press ev = true /\
       in_span startup times ev /\ p = payload_for device_mac ev).
Proof.
  intros Hs Hms Hperm Hclock [Hlo Hhi] Hcap.
  destruct (service_run_span srv device_mac shuffle store
              (startup - startup_lookback) Hs Hms Hperm Hlo
              times [] (startup - startup_lookback) (initial_world startup)
              (initial_world_span device_mac store startup))
    as (prev' & Hnd & Hpost & Hbelow & _ & _).
  - destruct times as [| t rest]; [exact I |].
    destruct Hclock as [Hstart Hsleep]. split; [| exact Hsleep].
    cbn [initial_world last_check_time].
    unfold startup_lookback, microseconds_per_second. lia.
  - exact Hcap.
  - exact Hhi.
  - cbn [app] in Hbelow. fold (bridge_run srv device_mac shuffle store
                                 startup times) in Hnd, Hpost, Hbelow.
    split; [exact Hnd |]. split.
    + intros ev Hst Hp (t & Ht & Hl & Hu).
      apply (proj1 (NoDup_count_occ' payload_eq_dec _) Hnd).
      apply Hpost. exists ev. repeat split; try assumption.
      apply (Hbelow ev Hst Hl). exists t. split; assumption.
    + intros p Hin. apply Hpost in Hin.
      destruct Hin as (ev & Hst & Hp & -> & Hl & Hu).
      exists ev. repeat split; try assumption.
      destruct (proj1 (Hbelow ev Hst Hl) Hu) as (t & Ht & Hle).
      exists t. repeat split; assumption.
Qed.

Lemma sample_shuffle_permutes (x y : Z) (l : list event) :
  Permutation (sample_shuffle x y l) l.
Proof.
  unfold sample_shuffle.
  destruct (Z.even (y / microseconds_per_second)).
  - apply Permutation_refl.
  - apply Permutation_sym, Permutation_rev.
Qed.

Lemma each_press_posted_exactly_once_witness :
  let final := bridge_run flaky sample_mac sample_shuffle sample_store
                 (seconds 100) sample_times in
  strictly_increasing (filter is_button_press sample_store) /\
  whole_milliseconds sample_store /\
  clock_readings (seconds 100) sample_times /\
  clock_in_calendar (seconds 100) sample_times /\
  within_cap sample_store (seconds 100 - startup_lookback) sample_times /\
  in_span (seconds 100) sample_times (press (seconds 103)) /\
  count_occ payload_eq_dec (posts final)
    (payload_for sample_mac (press (seconds 103))) = 1%nat.
Proof.
  intros final.
  assert (Hs : strictly_increasing (filter is_button_press sample_store)).
  { cbn. repeat constructor. }
  assert (Hms : whole_milliseconds sample_store).
  { intros ev [<- | [<- | [<- | [<- | [<- | []]]]]]; reflexivity. }
  assert (Hclock : clock_readings (seconds 100) sample_times).
  { repeat split; vm_compute; discriminate. }
  assert (Hcal : clock_in_calendar (seconds 100) sample_times).
  { split; [vm_compute; discriminate |].
    intros t [<- | [<- | [<- | [<- | []]]]]; vm_compute; discriminate. }
  assert (Hcap : within_cap sample_store (seconds 100 - startup_lookback)
                   sample_times).
  { cbn [within_cap sample_times].
    repeat (split; [vm_compute; repeat constructor |]). exact I. }
  assert (Hspan : in_span (seconds 100) sample_times (press (seconds 103))).
  { exists (seconds 105). split; [left; reflexivity |].
    split; vm_compute; discriminate. }
  split; [exact Hs |]. split; [exact Hms |]. split; [exact Hclock |].
  split; [exact Hcal |]. split; [exact Hcap |]. split; [exact Hspan |].
  destruct (each_press_posted_exactly_once flaky sample_mac sample_shuffle
              sample_store (seconds 100) sample_times
              Hs Hms sample_shuffle_permutes Hclock Hcal Hcap)
    as (_ & Honce & _).
  apply Honce; [do 2 right; left; reflexivity | reflexivity | exact Hspan].
Defined.

(** C1 as the specification words it fails.  Two button presses are stamped
    104.9995 s and 105.0002 s, strictly increasing and both between the
    first watermark (85 s) and the clock readings 105 s, 110 s, 115 s; every
    query succeeds and returns what falls in its window.  The first cycle
    posts the first press and moves the watermark to 105.0005 s, so the
    second press falls in no later window and is never posted. *)
Lemma press_within_a_millisecond_counterexample :
  let final := bridge_run accepting sample_mac keep_order close_store
                 (seconds 100) close_times in
  strictly_increasing close_store /\
  clock_readings (seconds 100) close_times /\
  (forall ev, In ev close_store ->
     is_button_press ev = true /\ in_span (seconds 100) close_times ev) /\
  (forall q, In q (queries final) ->
     (List.length (stored_in close_store q) <= 10)%nat) /\
  map q_start_time (queries final) = [seconds 85; 105000500; seconds 110] /\
  posts final = [payload_for sample_mac (press 104999500)] /\
  count_occ payload_eq_dec (posts final)
    (payload_for sample_mac (press 105000200)) = 0%nat.
Proof.
  intros final.
  assert (Hq : queries final =
               [mkQuery sample_mac (seconds 85) (seconds 105) 10;
                mkQuery sample_mac 105000500 (seconds 110) 10;
                mkQuery sample_mac (seconds 110) (seconds 115) 10])
    by (vm_compute; reflexivity).
  assert (Hp : posts final = [payload_for sample_mac (press 104999500)])
    by (vm_compute; reflexivity).
  split; [repeat constructor |].
  split; [repeat split; vm_compute; discriminate |].
  split.
  { intros ev [<- | [<- | []]]; (split; [reflexivity |]);
      exists (seconds 110); (split; [right; left; reflexivity |]);
      split; vm_compute; discriminate. }
  split.
  { rewrite Hq. intros q [<- | [<- | [<- | []]]];
      vm_compute; repeat constructor. }
  split; [rewrite Hq; reflexivity |].
  split; [exact Hp |].
  rewrite Hp. vm_compute. reflexivity.
Qed.

(** ** Start-up: from the environment to the loop *)

(** X1. The loop is entered exactly when both credentials are set and not
    empty and the SDK constructor returns: then the script prints the two
    start-up lines and polls the device named by the environment (or the
    placeholder), starting 15 s back.  In every other case it prints the
    error and the exit line and makes no query and no request. *)
Theorem bridge_polls_only_with_a_client {C : Type}
    (Client : string -> string -> result C)
    (WYZE_EMAIL WYZE_PASSWORD DOORBELL_MAC_ID : option string)
    (startup : Z) (srv : endpoint) (cs : list cycle) :
  (client_available Client WYZE_EMAIL WYZE_PASSWORD ->
   bridge_process Client WYZE_EMAIL WYZE_PASSWORD DOORBELL_MAC_ID
                  startup srv cs
   = ([ClientInitialized;
       StartingBridge (DOORBELL_MAC DOORBELL_MAC_ID) POLLING_INTERVAL_SECONDS],
      exec (main_loop srv (DOORBELL_MAC DOORBELL_MAC_ID) cs)
           (initial_world startup))) /\
  (~ client_available Client WYZE_EMAIL WYZE_PASSWORD ->
   exists e,
     bridge_process Client WYZE_EMAIL WYZE_PASSWORD DOORBELL_MAC_ID
                    startup srv cs
     = ([ErrorInitializing e; ExitingNoClient], initial_world startup)).
Proof.
  unfold bridge_process, initialize_wyze_client, client_available.
  split.
  - intros (email & password & c & -> & -> & He & Hp & Hc).
    destruct email as [| a email]; [contradiction |].
    destruct password as [| b password]; [contradiction |].
    cbn [truthy negb orb]. rewrite Hc. reflexivity.
  - intros Hno.
    destruct WYZE_EMAIL as [[| a email] |];
      destruct WYZE_PASSWORD as [[| b password] |];
      cbn [truthy negb orb]; try (eexists; reflexivity).
    destruct (Client (String a email) (String b password)) as [c | e] eqn:Hc.
    + exfalso. apply Hno.
      exists (String a email), (String b password), c.
      repeat split; try assumption; discriminate.
    + eexists. reflexivity.
Qed.

(** ** More about one cycle *)

(** X2. Whatever the client and the endpoint do, a cycle leaves the
    watermark at one of three values: where it was (when the query raised,
    or when a returned timestamp does not convert to UTC or is too close to
    the end of the calendar for the increment, which makes the cycle raise
    OverflowError), the clock reading of the cycle, or the timestamp of a
    returned event later than the old watermark plus one millisecond. *)
Theorem watermark_after_cycle_cases
    (now : Z) (srv : endpoint) (client : WyzeClient) (device_mac : string)
    (w : world) :
  let w' := exec (poll_for_doorbell_events now srv client device_mac) w in
  (last_check_time w' = last_check_time w /\
   ((exists e, client device_mac (last_check_time w) now 10 = Raised e) \/
    (exists events,
       client device_mac (last_check_time w) now 10 = Return events /\
       (~ in_calendar events \/
        ~ advance_fits (last_check_time w) events)))) \/
  ((exists events, client device_mac (last_check_time w) now 10
                   = Return events) /\
   last_check_time w' = now) \/
  (exists events ev,
     client device_mac (last_check_time w) now 10 = Return events /\
     In ev events /\ last_check_time w < event_ts ev /\
     last_check_time w' = event_ts ev + one_millisecond).
Proof.
  intros w'. unfold w', exec.
  poll_paths now srv client device_mac w events e Hq Hc Hfit;
    cbn [snd last_check_time].
  - right. unfold next_check_time.
    destruct (Z.gtb_spec (latest_after (last_check_time w) events)
                (last_check_time w)) as [Hg | Hg].
    + right. exists events.
      destruct (latest_after_cases events (last_check_time w))
        as [Heq | (ev & Hin & Heq)]; [lia |].
      exists ev. rewrite Heq. repeat split; assumption.
    + left. split; [exists events |]; reflexivity.
  - left. split; [reflexivity |]. right. exists events. tauto.
  - left. split; [reflexivity |]. right. exists events. tauto.
  - left. split; [reflexivity |]. left. exists e. reflexivity.
Qed.

(** ** More about runs *)

Lemma main_loop_app (srv : endpoint) (device_mac : string)
    (cs1 cs2 : list cycle) :
  forall w,
    exec (main_loop srv device_mac (cs1 ++ cs2)) w =
    exec (main_loop srv device_mac cs2) (exec (main_loop srv device_mac cs1) w).
Proof.
  induction cs1 as [| c cs1 IH]; intros w.
  - reflexivity.
  - cbn [app]. unfold exec at 1 3. rewrite !main_loop_cons. apply IH.
Qed.

(** X3. Every iteration makes exactly one query, for the device and with
    the cap of 10, whether it succeeds or not: the n-th query of a run asks
    for the window from the watermark left by the n iterations before it to
    the clock reading of its own iteration. *)
Theorem one_query_per_cycle
    (srv : endpoint) (device_mac : string) (cs : list cycle) (w : world) :
  exists qs,
    queries (exec (main_loop srv device_mac cs) w) = queries w ++ qs /\
    List.length qs = List.length cs /\
    forall n c,
      nth_error cs n = Some c ->
      nth_error qs n =
      Some (mkQuery device_mac
              (last_check_time (world_after srv device_mac cs n w))
              (current_time c) 10).
Proof.
  revert w. induction cs as [| c cs IH]; intros w.
  - exists []. split; [symmetry; apply app_nil_r |].
    split; [reflexivity |]. intros [| n] c' H; discriminate H.
  - destruct (IH (exec (poll_cycle srv device_mac c) w)) as (qs & Hq & Hl & Hn).
    exists (mkQuery device_mac (last_check_time w) (current_time c) 10 :: qs).
    split; [| split].
    + unfold exec at 1. rewrite main_loop_cons.
      fold (exec (main_loop srv device_mac cs)
              (exec (poll_cycle srv device_mac c) w)).
      rewrite Hq. unfold poll_cycle at 1. rewrite poll_query_sent.
      rewrite <- app_assoc. reflexivity.
    + cbn [List.length]. rewrite Hl. reflexivity.
    + intros [| n] c' Hc.
      * cbn in Hc. injection Hc as <-. rewrite world_after_0. reflexivity.
      * cbn [nth_error] in Hc |- *. rewrite world_after_cons.
        apply Hn, Hc.
Qed.

Lemma outage_world (srv : endpoint) (device_mac : string) (cs : list cycle) :
  forall w,
    Forall (query_raises device_mac (last_check_time w)) cs ->
    last_check_time (exec (main_loop srv device_mac cs) w)
      = last_check_time w /\
    posts (exec (main_loop srv device_mac cs) w) = posts w /\
    queries (exec (main_loop srv device_mac cs) w)
      = queries w
        ++ map (fun c => mkQuery device_mac (last_check_time w)
                           (current_time c) 10) cs.
Proof.
  induction cs as [| c cs IH]; intros w Hall.
  - repeat split. symmetry. apply app_nil_r.
  - inversion Hall as [| c' cs' [e He] Hrest]; subst.
    unfold exec. rewrite main_loop_cons.
    fold (exec (main_loop srv device_mac cs)
            (exec (poll_cycle srv device_mac c) w)).
    assert (Hw : exec (poll_cycle srv device_mac c) w =
                 mkWorld (last_check_time w)
                   (queries w ++ [mkQuery device_mac (last_check_time w)
                                    (current_time c) 10])
                   (posts w)
                   (stdout w ++ [PollingBetween (last_check_time w)
                                   (current_time c); PollingError e])).
    { unfold exec, poll_cycle. rewrite (poll_query_raises _ _ _ _ _ _ He).
      reflexivity. }
    rewrite Hw.
    destruct (IH (mkWorld (last_check_time w)
                   (queries w ++ [mkQuery device_mac (last_check_time w)
                                    (current_time c) 10])
                   (posts w)
                   (stdout w ++ [PollingBetween (last_check_time w)
                                   (current_time c); PollingError e])))
      as (Hl & Hp & Hq); [exact Hrest |].
    rewrite Hl, Hp, Hq. cbn [last_check_time posts queries map].
    rewrite <- app_assoc. repeat split.
Qed.

(** X4. During an outage, however long, the bridge stays where it was: when
    the query of every iteration raises, the watermark and the requests made
    are those from before the outage, and every retry asks again from the
    same start, up to its own clock reading. *)
Theorem outage_keeps_the_window_start
    (srv : endpoint) (device_mac : string) (cs : list cycle) (w : world) :
  Forall (query_raises device_mac (last_check_time w)) cs ->
  last_check_time (exec (main_loop srv device_mac cs) w)
    = last_check_time w /\
  posts (exec (main_loop srv device_mac cs) w) = posts w /\
  queries (exec (main_loop srv device_mac cs) w)
    = queries w
      ++ map (fun c => mkQuery device_mac (last_check_time w)
                         (current_time c) 10) cs.
Proof.
  apply outage_world.
Qed.

Lemma sample_outage_raises (t : Z) :
  Forall (query_raises sample_mac t) sample_outage.
Proof.
  repeat constructor; eexists; reflexivity.
Qed.

Lemma outage_keeps_the_window_start_witness :
  let w := initial_world (seconds 100) in
  Forall (query_raises sample_mac (last_check_time w)) sample_outage /\
  last_check_time (exec (main_loop accepting sample_mac sample_outage) w)
    = seconds 85 /\
  map q_start_time
    (queries (exec (main_loop accepting sample_mac sample_outage) w))
    = [seconds 85; seconds 85; seconds 85].
Proof.
  intros w.
  pose proof (sample_outage_raises (last_check_time w)) as Hall.
  split; [exact Hall |].
  destruct (outage_keeps_the_window_start accepting sample_mac sample_outage
              w Hall) as (Hl & _ & Hq).
  split; [exact Hl |].
  rewrite Hq. reflexivity.
Defined.

(** X5. The first query that succeeds after an outage makes up for it: run
    against a service that keeps its events, the recovery iteration posts
    the stored button presses stamped between the watermark from before the
    outage and its own clock reading (when they are within the cap), and
    nothing else.  The watermark and the clock reading are instants of the
    calendar. *)
Theorem recovery_cycle_delivers_the_outage
    (srv : endpoint) (device_mac : string)
    (shuffle : Z -> Z -> list event -> list event) (store : list event)
    (outage : list cycle) (t : Z) (w : world) :
  (forall x y l, Permutation (shuffle x y l) l) ->
  Forall (query_raises device_mac (last_check_time w)) outage ->
  (List.length (stored_in store (mkQuery device_mac (last_check_time w) t 10))
   <= 10)%nat ->
  dt_min <= last_check_time w ->
  t <= dt_max ->
  exists new,
    posts (exec (main_loop srv device_mac
                   (outage ++ [mkCycle t (service shuffle store)])) w)
    = posts w ++ new /\
    Permutation new
      (map (payload_for device_mac)
         (filter is_button_press
            (stored_in store (mkQuery device_mac (last_check_time w) t 10)))).
Proof.
  intros Hperm Hall Hcap Hlo Hhi.
  destruct (outage_world srv device_mac outage w Hall) as (Hl & Hp & _).
  rewrite main_loop_app.
  set (w1 := exec (main_loop srv device_mac outage) w) in *.
  rewrite <- Hl in Hcap, Hlo.
  destruct (service_answer shuffle store device_mac (last_check_time w1) t
              Hperm Hcap) as (events & Hq & Hev).
  assert (Hc : in_calendar events).
  { intros ev Hin. apply (Permutation_in _ Hev) in Hin.
    apply filter_In in Hin. destruct Hin as [_ Hin].
    apply in_window_bounds in Hin. lia. }
  exists (map (payload_for device_mac) (rev (filter is_button_press events))).
  split.
  - unfold exec at 1. rewrite main_loop_cons. cbn [main_loop].
    unfold ret, exec, poll_cycle. cbn [snd current_time events_list].
    destruct (advance_fits_dec (last_check_time w1) events) as [Hfit | Hfit].
    + rewrite (poll_query_ok _ _ _ _ _ _ Hq Hc Hfit), posted_presses.
      cbn [snd posts]. fold w1. rewrite Hp. reflexivity.
    + rewrite (poll_query_late_overflow _ _ _ _ _ _ Hq Hc Hfit),
        posted_presses.
      cbn [snd posts]. fold w1. rewrite Hp. reflexivity.
  - apply Permutation_map.
    apply (Permutation_trans (Permutation_sym (Permutation_rev _))).
    apply Permutation_filter. rewrite <- Hl. exact Hev.
Qed.

Lemma recovery_cycle_delivers_the_outage_witness :
  let w := initial_world (seconds 100) in
  let final := exec (main_loop flaky sample_mac
                       (sample_outage
                        ++ [mkCycle (seconds 120)
                              (service sample_shuffle sample_store)])) w in
  Forall (query_raises sample_mac (last_check_time w)) sample_outage /\
  (List.length (stored_in sample_store
                  (mkQuery sample_mac (last_check_time w) (seconds 120) 10))
   <= 10)%nat /\
  dt_min <= last_check_time w /\
  seconds 120 <= dt_max /\
  exists new,
    posts final = posts w ++ new /\
    Permutation new
      (map (payload_for sample_mac) (filter is_button_press sample_store)).
Proof.
  intros w final.
  pose proof (sample_outage_raises (last_check_time w)) as Hall.
  assert (Hcap : (List.length
                    (stored_in sample_store
                       (mkQuery sample_mac (last_check_time w)
                          (seconds 120) 10)) <= 10)%nat).
  { vm_compute. repeat constructor. }
  assert (Hlo : dt_min <= last_check_time w) by (vm_compute; discriminate).
  assert (Hhi : seconds 120 <= dt_max) by (vm_compute; discriminate).
  split; [exact Hall |].
  split; [exact Hcap |].
  split; [exact Hlo |].
  split; [exact Hhi |].
  exact (recovery_cycle_delivers_the_outage flaky sample_mac sample_shuffle
           sample_store sample_outage (seconds 120) w
           sample_shuffle_permutes Hall Hcap Hlo Hhi).
Defined.

(** ** Runs with clients that keep to the window *)

(** One cycle with a proper window and a client that keeps to it. *)
Lemma honest_cycle (srv : endpoint) (device_mac : string) (c : cycle)
    (w : world) :
  window_honest (events_list c) ->
  last_check_time w < current_time c ->
  last_check_time w
    <= last_check_time (exec (poll_cycle srv device_mac c) w) /\
  last_check_time (exec (poll_cycle srv device_mac c) w)
    <= current_time c + one_millisecond /\
  exists new,
    posts (exec (poll_cycle srv device_mac c) w) = posts w ++ new /\
    forall p, In p new ->
      last_check_time w <= p_eventTimeUtc p <= current_time c.
Proof.
  intros Hh Hlt. unfold exec, poll_cycle.
  assert (Hposted : forall events,
             (forall ev, In ev events ->
                last_check_time w <= event_ts ev <= current_time c) ->
             forall p,
               In p (map payload_of (rev (presses device_mac events))) ->
               last_check_time w <= p_eventTimeUtc p <= current_time c).
  { intros events Hwin p Hp. rewrite posted_presses in Hp.
    apply in_posted in Hp. destruct Hp as (ev & Hi & _ & ->).
    rewrite payload_for_time. apply Hwin, Hi. }
  poll_paths (current_time c) srv (events_list c) device_mac w
             events e Hq Hc Hfit;
    cbn [snd last_check_time posts]; unfold one_millisecond.
  - pose proof (Hh _ _ _ _ _ Hq) as Hwin.
    destruct (next_check_time_bounds (last_check_time w) (current_time c)
                events Hlt Hwin) as (Hpast & Hnear & _).
    unfold one_millisecond in Hnear.
    split; [lia |]. split; [exact Hnear |].
    eexists. split; [reflexivity | apply (Hposted events Hwin)].
  - split; [lia |]. split; [lia |].
    eexists. split; [reflexivity |].
    apply (Hposted events (Hh _ _ _ _ _ Hq)).
  - split; [lia |]. split; [lia |].
    exists []. split; [symmetry; apply app_nil_r |]. intros p [].
  - split; [lia |]. split; [lia |].
    exists []. split; [symmetry; apply app_nil_r |]. intros p [].
Qed.

(** With room for the increment of line 120 after the clock reading, the
    requests made stay below the watermark. *)
Lemma honest_cycle_below (srv : endpoint) (device_mac : string) (c : cycle)
    (w : world) :
  window_honest (events_list c) ->
  last_check_time w < current_time c ->
  current_time c + one_millisecond <= dt_max ->
  delivered_below w ->
  delivered_below (exec (poll_cycle srv device_mac c) w).
Proof.
  intros Hh Hlt Hhi Hb. unfold exec, poll_cycle, delivered_below.
  poll_paths (current_time c) srv (events_list c) device_mac w
             events e Hq Hc Hfit;
    cbn [snd last_check_time posts]; try exact Hb.
  - pose proof (Hh _ _ _ _ _ Hq) as Hwin.
    destruct (next_check_time_bounds (last_check_time w) (current_time c)
                events Hlt Hwin) as (Hpast & _ & Hbefore).
    intros p Hp. apply in_app_or in Hp. destruct Hp as [Hp | Hp].
    + specialize (Hb p Hp). lia.
    + rewrite posted_presses in Hp. apply in_posted in Hp.
      destruct Hp as (ev & Hi & _ & ->).
      rewrite payload_for_time. apply Hbefore, Hi.
  - exfalso. apply Hfit.
    apply (window_advance_fits events _ (current_time c) (Hh _ _ _ _ _ Hq) Hhi).
Qed.

Lemma honest_clock_proper (srv : endpoint) (device_mac : string)
    (cs : list cycle) :
  Forall (fun c => window_honest (events_list c)) cs ->
  forall w,
    clock_ahead w (map current_time cs) ->
    proper_windows srv device_mac cs w.
Proof.
  intros Hh. induction Hh as [| c cs Hc _ IH]; intros w Hclock.
  - exact I.
  - cbn [map clock_ahead] in Hclock. destruct Hclock as [Hlt Hsleep].
    split; [exact Hlt |].
    apply IH. destruct cs as [| c' cs']; [exact I |].
    cbn [map sleeps_between clock_ahead] in Hsleep |- *.
    destruct Hsleep as [Hgap Hsleep]. split; [| exact Hsleep].
    destruct (honest_cycle srv device_mac c w Hc Hlt) as (_ & Hnear & _).
    unfold POLLING_INTERVAL_SECONDS, microseconds_per_second in Hgap.
    unfold one_millisecond in Hnear. lia.
Qed.

Lemma proper_windows_firstn (srv : endpoint) (device_mac : string) (n : nat) :
  forall (cs : list cycle) (w : world),
    proper_windows srv device_mac cs w ->
    proper_windows srv device_mac (firstn n cs) w.
Proof.
  induction n as [| n IH]; intros cs w Hp.
  - exact I.
  - destruct cs as [| c cs]; [exact I |].
    cbn [firstn proper_windows] in *. destruct Hp as [Hlt Hp].
    split; [exact Hlt | apply IH, Hp].
Qed.

(** A run of proper windows with such clients: the requests it adds are
    stamped from the first watermark on and not after the clock reading of
    some iteration. *)
Lemma honest_run_posts (srv : endpoint) (device_mac : string)
    (cs : list cycle) :
  Forall (fun c => window_honest (events_list c)) cs ->
  forall w,
    proper_windows srv device_mac cs w ->
    last_check_time w
      <= last_check_time (exec (main_loop srv device_mac cs) w) /\
    exists new,
      posts (exec (main_loop srv device_mac cs) w) = posts w ++ new /\
      forall p, In p new ->
        last_check_time w <= p_eventTimeUtc p /\
        exists c, In c cs /\ p_eventTimeUtc p <= current_time c.
Proof.
  intros Hh. induction Hh as [| c cs Hc _ IH]; intros w Hp.
  - split; [apply Z.le_refl |].
    exists []. split; [symmetry; apply app_nil_r |]. intros p [].
  - destruct Hp as [Hlt Hp].
    destruct (honest_cycle srv device_mac c w Hc Hlt)
      as (Hmono & _ & new1 & Hposts1 & Hnew1).
    destruct (IH _ Hp) as (Hmono2 & new2 & Hposts2 & Hnew2).
    unfold exec at 1 2. rewrite main_loop_cons.
    fold (exec (main_loop srv device_mac cs)
            (exec (poll_cycle srv device_mac c) w)).
    split; [lia |].
    exists (new1 ++ new2). split.
    + rewrite Hposts2, Hposts1, app_assoc. reflexivity.
    + intros p Hin. apply in_app_or in Hin. destruct Hin as [Hin | Hin].
      * destruct (Hnew1 p Hin) as [Hlo Hhi].
        split; [exact Hlo |]. exists c. split; [left; reflexivity | exact Hhi].
      * destruct (Hnew2 p Hin) as [Hlo (c' & Hc' & Hhi)].
        split; [lia |]. exists c'. split; [right; exact Hc' | exact Hhi].
Qed.

Lemma honest_run_below (srv : endpoint) (device_mac : string)
    (cs : list cycle) :
  Forall (fun c => window_honest (events_list c)) cs ->
  (forall c, In c cs -> current_time c + one_millisecond <= dt_max) ->
  forall w,
    proper_windows srv device_mac cs w ->
    delivered_below w ->
    delivered_below (exec (main_loop srv device_mac cs) w).
Proof.
  intros Hh. induction Hh as [| c cs Hc _ IH]; intros Hhi w Hp Hb.
  - exact Hb.
  - destruct Hp as [Hlt Hp].
    unfold exec. rewrite main_loop_cons.
    apply IH; [intros c' Hc'; apply Hhi; right; exact Hc' | exact Hp |].
    apply honest_cycle_below; try assumption.
    apply Hhi. left. reflexivity.
Qed.

(** X6. When every reply holds only events inside the window asked for and
    the clock advances by the polling interval between iterations, the
    watermark never gets more than one millisecond ahead of the clock
    reading of the iteration that set it, and every iteration starts with
    its window start before its window end. *)
Theorem watermark_stays_within_a_millisecond_of_the_clock
    (srv : endpoint) (device_mac : string) (cs : list cycle) (w : world) :
  Forall (fun c => window_honest (events_list c)) cs ->
  clock_ahead w (map current_time cs) ->
  proper_windows srv device_mac cs w /\
  forall n c,
    nth_error cs n = Some c ->
    last_check_time (world_after srv device_mac cs n w) < current_time c /\
    last_check_time (world_after srv device_mac cs (S n) w)
      <= current_time c + one_millisecond.
Proof.
  intros Hh Hclock.
  pose proof (honest_clock_proper srv device_mac cs Hh w Hclock) as Hp.
  split; [exact Hp |].
  intros n c Hn.
  pose proof (proper_windows_nth _ _ _ _ _ _ Hp Hn) as Hlt.
  split; [exact Hlt |].
  rewrite (world_after_step _ _ _ _ _ _ Hn).
  apply honest_cycle; [| exact Hlt].
  rewrite Forall_forall in Hh. apply Hh, (nth_error_In _ _ Hn).
Qed.

Lemma in_firstn {A : Type} (n : nat) :
  forall (l : list A) (x : A), In x (firstn n l) -> In x l.
Proof.
  induction n as [| n IH]; intros l x Hin.
  - destruct Hin.
  - destruct l as [| a l]; [destruct Hin |].
    destruct Hin as [<- | Hin]; [left; reflexivity | right; apply IH, Hin].
Qed.

Lemma service_window_honest
    (shuffle : Z -> Z -> list event -> list event) (store : list event) :
  (forall x y l, Permutation (shuffle x y l) l) ->
  window_honest (service shuffle store).
Proof.
  intros Hperm device_mac a b n events Hq ev Hin.
  injection Hq as <-. apply in_firstn in Hin.
  apply (Permutation_in _ (Hperm a b _)) in Hin.
  apply filter_In in Hin. apply in_window_bounds, Hin.
Qed.

Lemma polls_honest
    (shuffle : Z -> Z -> list event -> list event) (store : list event)
    (times : list Z) :
  (forall x y l, Permutation (shuffle x y l) l) ->
  Forall (fun c => window_honest (events_list c)) (polls shuffle store times).
Proof.
  intros Hperm. apply Forall_forall. intros c Hin.
  apply in_map_iff in Hin. destruct Hin as (t & <- & _).
  apply service_window_honest, Hperm.
Qed.

Lemma sample_polls_honest :
  Forall (fun c => window_honest (events_list c))
    (polls sample_shuffle sample_store sample_times).
Proof.
  apply polls_honest, sample_shuffle_permutes.
Qed.

Lemma sample_clock_ahead :
  clock_ahead (initial_world (seconds 100))
    (map current_time (polls sample_shuffle sample_store sample_times)).
Proof.
  repeat split; vm_compute; discriminate.
Qed.

Lemma watermark_stays_within_a_millisecond_of_the_clock_witness :
  let cs := polls sample_shuffle sample_store sample_times in
  let w := initial_world (seconds 100) in
  Forall (fun c => window_honest (events_list c)) cs /\
  clock_ahead w (map current_time cs) /\
  proper_windows flaky sample_mac cs w.
Proof.
  intros cs w.
  split; [exact sample_polls_honest |].
  split; [exact sample_clock_ahead |].
  exact (proj1 (watermark_stays_within_a_millisecond_of_the_clock flaky
                  sample_mac cs w sample_polls_honest sample_clock_ahead)).
Defined.

(** X7. No re-sending across iterations.  With replies that hold only
    events inside the window asked for, every window proper and every clock
    reading at least a millisecond before the end of the calendar, each
    iteration posts only timestamps strictly later than every timestamp
    posted before it (the requests made before the run being below the
    watermark it starts from). *)
Theorem each_cycle_posts_only_newer
    (srv : endpoint) (device_mac : string) (cs : list cycle) (w : world) :
  Forall (fun c => window_honest (events_list c)) cs ->
  (forall c, In c cs -> current_time c + one_millisecond <= dt_max) ->
  proper_windows srv device_mac cs w ->
  delivered_below w ->
  forall n c,
    nth_error cs n = Some c ->
    exists new,
      posts (world_after srv device_mac cs (S n) w)
      = posts (world_after srv device_mac cs n w) ++ new /\
      forall p p',
        In p new -> In p' (posts (world_after srv device_mac cs n w)) ->
        p_eventTimeUtc p' < p_eventTimeUtc p.
Proof.
  intros Hh Hhi Hp Hb n c Hn.
  assert (Hbn : delivered_below (world_after srv device_mac cs n w)).
  { unfold world_after.
    apply (honest_run_below srv device_mac (firstn n cs)).
    - rewrite Forall_forall in Hh |- *. intros c' Hin.
      apply Hh, (in_firstn _ _ _ Hin).
    - intros c' Hin. apply Hhi, (in_firstn _ _ _ Hin).
    - apply proper_windows_firstn, Hp.
    - exact Hb. }
  rewrite (world_after_step _ _ _ _ _ _ Hn).
  rewrite Forall_forall in Hh.
  destruct (honest_cycle srv device_mac c (world_after srv device_mac cs n w)
              (Hh c (nth_error_In _ _ Hn))
              (proper_windows_nth _ _ _ _ _ _ Hp Hn))
    as (_ & _ & new & Hposts & Hnew).
  exists new. split; [exact Hposts |].
  intros p p' Hin Hin'.
  specialize (Hbn p' Hin'). destruct (Hnew p Hin) as [Hlo _]. lia.
Qed.

Lemma each_cycle_posts_only_newer_witness :
  let cs := polls sample_shuffle sample_store sample_times in
  let w := initial_world (seconds 100) in
  Forall (fun c => window_honest (events_list c)) cs /\
  (forall c, In c cs -> current_time c + one_millisecond <= dt_max) /\
  proper_windows flaky sample_mac cs w /\
  delivered_below w /\
  exists new,
    posts (world_after flaky sample_mac cs 2 w)
    = posts (world_after flaky sample_mac cs 1 w) ++ new /\
    forall p p',
      In p new -> In p' (posts (world_after flaky sample_mac cs 1 w)) ->
      p_eventTimeUtc p' < p_eventTimeUtc p.
Proof.
  intros cs w.
  pose proof (honest_clock_proper flaky sample_mac cs sample_polls_honest w
                sample_clock_ahead) as Hp.
  assert (Hb : delivered_below w) by (intros p []).
  assert (Hhi : forall c, In c cs ->
                          current_time c + one_millisecond <= dt_max).
  { intros c [<- | [<- | [<- | [<- | []]]]]; vm_compute; discriminate. }
  split; [exact sample_polls_honest |].
  split; [exact Hhi |].
  split; [exact Hp |].
  split; [exact Hb |].
  apply (each_cycle_posts_only_newer flaky sample_mac cs w
           sample_polls_honest Hhi Hp Hb 1
           (mkCycle (seconds 110) (service sample_shuffle sample_store))).
  reflexivity.
Defined.

(** X8. Started from scratch, with replies that hold only events inside the
    window asked for and the clock advancing by the polling interval, the
    bridge never posts an event stamped more than 15 s before start-up, nor
    one stamped after the clock reading of every iteration. *)
Theorem bridge_posts_between_lookback_and_clock
    (srv : endpoint) (device_mac : string) (cs : list cycle) (startup : Z) :
  Forall (fun c => window_honest (events_list c)) cs ->
  clock_readings startup (map current_time cs) ->
  forall p,
    In p (posts (exec (main_loop srv device_mac cs) (initial_world startup))) ->
    startup - startup_lookback <= p_eventTimeUtc p /\
    exists c, In c cs /\ p_eventTimeUtc p <= current_time c.
Proof.
  intros Hh Hclock p Hin.
  assert (Hp : proper_windows srv device_mac cs (initial_world startup)).
  { apply honest_clock_proper; [exact Hh |].
    destruct cs as [| c cs']; [exact I |].
    cbn [map clock_readings clock_ahead] in Hclock |- *.
    destruct Hclock as [Hstart Hsleep]. split; [| exact Hsleep].
    cbn [initial_world last_check_time].
    unfold startup_lookback, microseconds_per_second. lia. }
  destruct (honest_run_posts srv device_mac cs Hh _ Hp)
    as (_ & new & Hposts & Hnew).
  rewrite Hposts in Hin. cbn [initial_world posts app] in Hin.
  apply (Hnew p Hin).
Qed.

Lemma bridge_posts_between_lookback_and_clock_witness :
  let cs := polls sample_shuffle sample_store sample_times in
  let p := payload_for sample_mac (press (seconds 90)) in
  Forall (fun c => window_honest (events_list c)) cs /\
  clock_readings (seconds 100) (map current_time cs) /\
  In p (posts (exec (main_loop flaky sample_mac cs)
                 (initial_world (seconds 100)))) /\
  seconds 100 - startup_lookback <= p_eventTimeUtc p.
Proof.
  intros cs p.
  assert (Hclock : clock_readings (seconds 100) (map current_time cs)).
  { repeat split; vm_compute; discriminate. }
  assert (Hposts : posts (exec (main_loop flaky sample_mac cs)
                            (initial_world (seconds 100)))
                   = map (payload_for sample_mac)
                       [press (seconds 90); press (seconds 103);
                        press (seconds 107); press (seconds 118)]).
  { vm_compute. reflexivity. }
  assert (Hin : In p (posts (exec (main_loop flaky sample_mac cs)
                               (initial_world (seconds 100))))).
  { rewrite Hposts. left. reflexivity. }
  split; [exact sample_polls_honest |].
  split; [exact Hclock |].
  split; [exact Hin |].
  exact (proj1 (bridge_posts_between_lookback_and_clock flaky sample_mac cs
                  (seconds 100) sample_polls_honest Hclock p Hin)).
Defined.



(** ** The log and the requests *)

Lemma report_is_outcome (r : post_result) :
  is_outcome (report r) = true /\ is_sending (report r) = false.
Proof.
  destruct r as [s | e]; cbn [report].
  - destruct ((400 <=? s) && (s <? 600)); split; reflexivity.
  - destruct (is_RequestException e); split; reflexivity.
Qed.

Lemma reports_count (srv : endpoint) (ds : list event_data) :
  forall history,
    List.length (filter is_sending (reports srv history ds)) = List.length ds /\
    List.length (filter is_outcome (reports srv history ds)) = List.length ds.
Proof.
  induction ds as [| d ds IH]; intros history.
  - split; reflexivity.
  - cbn [reports filter is_sending is_outcome].
    destruct (report_is_outcome (srv history (payload_of d))) as [-> ->].
    cbn [List.length].
    destruct (IH (history ++ [payload_of d])) as [-> ->].
    split; reflexivity.
Qed.

Lemma press_lines_count (srv : endpoint) (history : list payload)
    (ps : list event_data) :
  List.length (filter is_sending (press_lines srv history ps))
    = List.length ps /\
  List.length (filter is_outcome (press_lines srv history ps))
    = List.length ps.
Proof.
  destruct ps as [| d ps]; [split; reflexivity |].
  unfold press_lines. cbn [filter is_sending is_outcome].
  destruct (reports_count srv (rev (d :: ps)) history) as [-> ->].
  rewrite length_rev. split; reflexivity.
Qed.

Lemma poll_cycle_log (srv : endpoint) (device_mac : string) (c : cycle)
    (w : world) (f : line -> bool) :
  f = is_sending \/ f = is_outcome ->
  (List.length (filter f (stdout (exec (poll_cycle srv device_mac c) w)))
   + List.length (posts w)
   = List.length (filter f (stdout w))
     + List.length (posts (exec (poll_cycle srv device_mac c) w)))%nat.
Proof.
  intros Hf. unfold exec, poll_cycle.
  poll_paths (current_time c) srv (events_list c) device_mac w
             events e Hq Hc Hfit;
    cbn [snd stdout posts];
    rewrite ?filter_app, ?length_app, ?length_map, ?length_rev;
    try (destruct (press_lines_count srv (posts w)
                     (presses device_mac events)) as [Hs Ho]);
    destruct Hf as [-> | ->];
    cbn [filter is_sending is_outcome List.length];
    rewrite ?filter_app, ?length_app; cbn [filter is_sending is_outcome List.length];
    rewrite ?Hs, ?Ho; lia.
Qed.

(** X10. Every request leaves its trace: over any run, whatever the client
    and the endpoint do, the log gains exactly one "Sending event" line and
    exactly one closing line (response or error) per request made. *)
Theorem every_request_is_logged
    (srv : endpoint) (device_mac : string) (cs : list cycle) (w : world) :
  (List.length (filter is_sending
                  (stdout (exec (main_loop srv device_mac cs) w)))
   + List.length (posts w)
   = List.length (filter is_sending (stdout w))
     + List.length (posts (exec (main_loop srv device_mac cs) w)))%nat /\
  (List.length (filter is_outcome
                  (stdout (exec (main_loop srv device_mac cs) w)))
   + List.length (posts w)
   = List.length (filter is_outcome (stdout w))
     + List.length (posts (exec (main_loop srv device_mac cs) w)))%nat.
Proof.
  revert w. induction cs as [| c cs IH]; intros w.
  - split; reflexivity.
  - unfold exec. rewrite main_loop_cons.
    fold (exec (main_loop srv device_mac cs)
            (exec (poll_cycle srv device_mac c) w)).
    destruct (IH (exec (poll_cycle srv device_mac c) w)) as [Hs Ho].
    pose proof (poll_cycle_log srv device_mac c w is_sending
                  (or_introl eq_refl)) as Hs1.
    pose proof (poll_cycle_log srv device_mac c w is_outcome
                  (or_intror eq_refl)) as Ho1.
    split; lia.
Qed.
